(** * tools/webassembly.py: a minimal reader and patcher of wasm binaries

    A shallow embedding of [tools/webassembly.py] and the properties of its
    section reader, import enumerator, dylink codec and metadata writer.

    Conventions of the embedding:
    - a file, and a Python [bytes] object, is a [list byte];
    - a Python [int] that the code decodes or encodes is an [N] (the code
      never produces a negative one, except through [readSLEB], a [Z]);
    - a position in a file, and the length of a byte string, is a [nat];
    - a Python [str] is the list of its code points;
    - a raised exception is the [Raise] outcome of a [result]. *)

From stdpp Require Import gmap list strings.
From Stdlib Require Import Strings.Byte NArith ZArith Zpow_facts Lia.

Local Open Scope N_scope.

(** ** Bytes *)

Abbreviation bytes := (list byte).

(** [bytes([n])] for [n < 256]; the encoder only builds such bytes. *)
Definition byte_of_N (n : N) : byte :=
  match Byte.of_N (n mod 256) with
  | Some b => b
  | None => x00
  end.

Definition bytes_of (l : list N) : bytes := map byte_of_N l.

(** ** Exceptions and outcomes *)

Inductive exception : Set :=
| AssertionError
| IndexError
| DecodeError
| ValueError
| UnicodeDecodeError
| UnicodeEncodeError.

(** [Timeout] is the outcome of a loop of the model that ran out of fuel; the
    entry points are shown never to produce it. *)
Inductive result (A : Type) : Type :=
| Ok (a : A)
| Raise (e : exception)
| Timeout.
Arguments Ok {A} a.
Arguments Raise {A} e.
Arguments Timeout {A}.

Definition rbind {A B} (r : result A) (k : A -> result B) : result B :=
  match r with
  | Ok a => k a
  | Raise e => Raise e
  | Timeout => Timeout
  end.

Definition fails {A} (r : result A) : Prop := exists e, r = Raise e.

Definition assert (b : bool) : result unit :=
  if b then Ok tt else Raise AssertionError.

Declare Scope result_scope.
Delimit Scope result_scope with result.
Notation "x <-- c1 ;; c2" := (rbind c1 (fun x => c2))
  (at level 100, c1 at next level, right associativity) : result_scope.
Local Open Scope result_scope.

(** ** third_party/leb128: the varint codec *)

Module leb128.

(** Modelled from the spec: [third_party/leb128] is not among the sources.
    [u.encode] "produces the minimal unsigned variable-length encoding (7
    payload bits per byte, continuation bit set on all but the last byte)".
    The recursion is on a fuel that [u_encode] sets to the bit size of the
    number, which is enough ([u_encode_eq]). *)
Fixpoint u_encode_aux (fuel : nat) (i : N) : bytes :=
  match fuel with
  | O => [byte_of_N (i mod 128)]
  | S fuel' =>
      if i / 128 =? 0 then [byte_of_N (i mod 128)]
      else byte_of_N (128 + i mod 128) :: u_encode_aux fuel' (i / 128)
  end.

Definition u_encode (i : N) : bytes := u_encode_aux (N.size_nat i) i.

(** Modelled from the spec: [u.decode_reader] "reads bytes until a byte with
    the continuation bit clear; fails with a decode error if the stream ends
    first". It is given the bytes that remain in the stream, and returns the
    number with the count of bytes read. *)
Fixpoint u_decode_reader (r : bytes) : result (N * nat) :=
  match r with
  | [] => Raise DecodeError
  | b :: r' =>
      if Byte.to_N b <? 128 then Ok (Byte.to_N b, 1%nat)
      else
        match u_decode_reader r' with
        | Ok (v, n) => Ok (Byte.to_N b mod 128 + 128 * v, S n)
        | Raise e => Raise e
        | Timeout => Timeout
        end
  end.

(** Modelled from the spec: [i.decode_reader], the "same encoding but
    sign-extends from the last byte's sign bit". The first component of the
    auxiliary result tells whether the sign bit of the last byte is set. *)
Fixpoint i_decode_aux (r : bytes) : result (bool * N * nat) :=
  match r with
  | [] => Raise DecodeError
  | b :: r' =>
      if Byte.to_N b <? 128 then Ok (64 <=? Byte.to_N b, Byte.to_N b, 1%nat)
      else
        match i_decode_aux r' with
        | Ok (s, v, n) => Ok (s, Byte.to_N b mod 128 + 128 * v, S n)
        | Raise e => Raise e
        | Timeout => Timeout
        end
  end.

Definition i_decode_reader (r : bytes) : result (Z * nat) :=
  match i_decode_aux r with
  | Ok (s, v, n) =>
      Ok ((if s then Z.of_N v - 2 ^ (7 * Z.of_nat n) else Z.of_N v)%Z, n)
  | Raise e => Raise e
  | Timeout => Timeout
  end.

End leb128.

(** ** Python [str] and the utf-8 codec *)

(** A [str] is the list of its code points. *)
Abbreviation str := (list N).

(** The [str] of an ASCII literal of the source. *)
Definition str_of (s : string) : str := map Byte.to_N (String.list_byte_of_string s).

Module utf8.

(** [chr(c).encode('utf-8')]: a surrogate is refused, as Python does; a number
    above 0x10FFFF is no code point and is refused as well. *)
Definition encode_char (c : N) : result bytes :=
  if c <? 0x80 then Ok [byte_of_N c]
  else if c <? 0x800 then
    Ok [byte_of_N (0xC0 + c / 64); byte_of_N (0x80 + c mod 64)]
  else if c <? 0x10000 then
    if (0xD800 <=? c) && (c <? 0xE000) then Raise UnicodeEncodeError
    else Ok [byte_of_N (0xE0 + c / 4096); byte_of_N (0x80 + (c / 64) mod 64);
             byte_of_N (0x80 + c mod 64)]
  else if c <? 0x110000 then
    Ok [byte_of_N (0xF0 + c / 262144); byte_of_N (0x80 + (c / 4096) mod 64);
        byte_of_N (0x80 + (c / 64) mod 64); byte_of_N (0x80 + c mod 64)]
  else Raise UnicodeEncodeError.

(** [s.encode('utf-8')] *)
Fixpoint encode (s : str) : result bytes :=
  match s with
  | [] => Ok []
  | c :: s' =>
      e <-- encode_char c ;;
      r <-- encode s' ;;
      Ok (e ++ r)
  end.

(** [lo <= b <= hi] on the value of a byte. *)
Definition between (lo hi : N) (b : byte) : bool :=
  (lo <=? Byte.to_N b) && (Byte.to_N b <=? hi).

Definition cont (b : byte) : bool := between 0x80 0xBF b.

(** The payload bits of a continuation byte. *)
Definition low6 (b : byte) : N := Byte.to_N b - 0x80.

(** [bs.decode('utf-8')], strict: overlong forms, surrogates, values above
    0x10FFFF, stray continuation bytes and truncated sequences are refused. *)
Fixpoint decode (bs : bytes) : result str :=
  match bs with
  | [] => Ok []
  | b0 :: r0 =>
      let n0 := Byte.to_N b0 in
      if n0 <? 0x80 then
        s <-- decode r0 ;; Ok (n0 :: s)
      else if n0 <? 0xC2 then Raise UnicodeDecodeError
      else if n0 <? 0xE0 then
        match r0 with
        | b1 :: r1 =>
            if cont b1 then
              s <-- decode r1 ;; Ok ((n0 - 0xC0) * 64 + low6 b1 :: s)
            else Raise UnicodeDecodeError
        | _ => Raise UnicodeDecodeError
        end
      else if n0 <? 0xF0 then
        match r0 with
        | b1 :: b2 :: r2 =>
            if between (if n0 =? 0xE0 then 0xA0 else 0x80)
                       (if n0 =? 0xED then 0x9F else 0xBF) b1 && cont b2 then
              s <-- decode r2 ;;
              Ok ((n0 - 0xE0) * 4096 + low6 b1 * 64 + low6 b2 :: s)
            else Raise UnicodeDecodeError
        | _ => Raise UnicodeDecodeError
        end
      else if n0 <? 0xF5 then
        match r0 with
        | b1 :: b2 :: b3 :: r3 =>
            if between (if n0 =? 0xF0 then 0x90 else 0x80)
                       (if n0 =? 0xF4 then 0x8F else 0xBF) b1 && cont b2 && cont b3 then
              s <-- decode r3 ;;
              Ok ((n0 - 0xF0) * 262144 + low6 b1 * 4096 + low6 b2 * 64 + low6 b3 :: s)
            else Raise UnicodeDecodeError
        | _ => Raise UnicodeDecodeError
        end
      else Raise UnicodeDecodeError
  end.

(** The code points that [encode] accepts. *)
Definition scalar (c : N) : Prop := c < 0xD800 \/ 0xE000 <= c < 0x110000.

End utf8.

(** ** Constants and enumerations of the source *)

Definition EMSCRIPTEN_METADATA_MAJOR : N := 0.
Definition EMSCRIPTEN_METADATA_MINOR : N := 3.
Definition EMSCRIPTEN_ABI_MAJOR : N := 0.
Definition EMSCRIPTEN_ABI_MINOR : N := 29.

Definition WASM_PAGE_SIZE : N := 65536.

Definition toLEB (num : N) : bytes := leb128.u_encode num.

Inductive SecType : Set :=
| CUSTOM | TYPE | IMPORT | FUNCTION | TABLE | MEMORY | EVENT | GLOBAL
| EXPORT | START | ELEM | DATACOUNT | CODE | DATA.

(** The value of a member of the [IntEnum]; a member compares and hashes as
    its value, so the keys of [section_map] are numbers. *)
Definition SecType_value (t : SecType) : N :=
  match t with
  | CUSTOM => 0 | TYPE => 1 | IMPORT => 2 | FUNCTION => 3 | TABLE => 4
  | MEMORY => 5 | EVENT => 13 | GLOBAL => 6 | EXPORT => 7 | START => 8
  | ELEM => 9 | DATACOUNT => 12 | CODE => 10 | DATA => 11
  end.

Module ExternType.

Inductive t : Set := FUNC | TABLE | MEMORY | GLOBAL | EVENT.


(** [ExternType(n)]: a number that is no member's value raises [ValueError]. *)
Definition of_value (n : N) : result t :=
  match n with
  | 0 => Ok FUNC | 1 => Ok TABLE | 2 => Ok MEMORY | 3 => Ok GLOBAL | 4 => Ok EVENT
  | _ => Raise ValueError
  end.

End ExternType.

(** The named tuples [Section], [Limits] and [Import]. *)
Record section_info : Set := Section_
  { sec_type : N; sec_size : N; sec_offset : nat }.

Record Limits : Set := Limits_
  { flags : N; initial : N; maximum : N }.

Record import_info : Set := Import_
  { imp_type : ExternType.t; imp_mod : str; imp_field : str }.

(** ** class Module *)

(** The object: [size], the file object [buf] as the bytes of the file with
    the position of the stream, [sections] and [section_map]. *)
Record wasm_module : Type := Module_
  { msize : nat;
    buf : bytes;
    pos : nat;
    sections : list section_info;
    section_map : gmap N section_info }.

(** A method: it runs on the object and returns with the object as it left
    it, or raises. *)
Definition M (A : Type) : Type := wasm_module -> result (A * wasm_module).

Definition ret {A} (a : A) : M A := fun self => Ok (a, self).

Definition bind {A B} (m : M A) (k : A -> M B) : M B :=
  fun self =>
    match m self with
    | Ok (a, self') => k a self'
    | Raise e => Raise e
    | Timeout => Timeout
    end.

Definition raise {A} (e : exception) : M A := fun _ => Raise e.

Definition lift {A} (r : result A) : M A :=
  fun self =>
    match r with
    | Ok a => Ok (a, self)
    | Raise e => Raise e
    | Timeout => Timeout
    end.

Declare Scope method_scope.
Delimit Scope method_scope with method.
Notation "x <- c1 ;; c2" := (bind c1 (fun x => c2))
  (at level 100, c1 at next level, right associativity) : method_scope.
Notation "c1 ;;; c2" := (bind c1 (fun _ => c2))
  (at level 100, right associativity) : method_scope.
Local Open Scope method_scope.

Definition set_pos (self : wasm_module) (p : nat) : wasm_module :=
  {| msize := msize self; buf := buf self; pos := p;
     sections := sections self; section_map := section_map self |}.

(** [self.buf.read(n)]: the bytes that are there, fewer than [n] at the end of
    the file, none beyond it. *)
Definition buf_read (n : nat) : M bytes :=
  fun self =>
    let bs := take n (drop (pos self) (buf self)) in
    Ok (bs, set_pos self (pos self + length bs)%nat).

Definition buf_tell : M nat := fun self => Ok (pos self, self).

(** [self.seek(offset)]; a position beyond the end of the file is accepted. *)
Definition seek (offset : nat) : M unit :=
  fun self => Ok (tt, set_pos self offset).

Definition readByte : M N :=
  bs <- buf_read 1 ;;
  match bs with
  | b :: _ => ret (Byte.to_N b)
  | [] => raise IndexError
  end.

Definition readULEB : M N :=
  fun self =>
    match leb128.u_decode_reader (drop (pos self) (buf self)) with
    | Ok (v, n) => Ok (v, set_pos self (pos self + n)%nat)
    | Raise e => Raise e
    | Timeout => Timeout
    end.

Definition readSLEB : M Z :=
  fun self =>
    match leb128.i_decode_reader (drop (pos self) (buf self)) with
    | Ok (v, n) => Ok (v, set_pos self (pos self + n)%nat)
    | Raise e => Raise e
    | Timeout => Timeout
    end.

Definition readString : M str :=
  size <- readULEB ;;
  bs <- buf_read (N.to_nat size) ;;
  lift (utf8.decode bs).

Definition readLimits : M Limits :=
  flags <- readByte ;;
  initial <- readULEB ;;
  maximum <- (if N.land flags 1 =? 0 then ret 0 else readULEB) ;;
  ret (Limits_ flags initial maximum).

Definition sections_append (s : section_info) : M unit :=
  fun self =>
    Ok (tt, {| msize := msize self; buf := buf self; pos := pos self;
               sections := sections self ++ [s];
               section_map := section_map self |}).

Definition section_map_set (k : N) (s : section_info) : M unit :=
  fun self =>
    Ok (tt, {| msize := msize self; buf := buf self; pos := pos self;
               sections := sections self;
               section_map := <[k := s]> (section_map self) |}).

Definition section_map_mem (k : N) : M bool :=
  fun self => Ok (bool_decide (is_Some (section_map self !! k)), self).

(** The loop of [readSectionHeaders]; each turn of the [while] takes one unit
    of fuel. *)
Fixpoint readSectionHeaders (fuel : nat) : M unit :=
  fun self =>
    if (pos self =? msize self)%nat then Ok (tt, self)
    else
      match fuel with
      | O => Timeout
      | S fuel' =>
          (section_type <- readByte ;;
           section_size <- readULEB ;;
           offset <- buf_tell ;;
           let section_info := Section_ section_type section_size offset in
           sections_append section_info ;;;
           (if section_type =? SecType_value CUSTOM then ret tt
            else
              present <- section_map_mem section_type ;;
              lift (assert (negb present)) ;;;
              section_map_set section_type section_info) ;;;
           seek (offset + N.to_nat section_size) ;;;
           readSectionHeaders fuel') self
      end.

Instance byte_eq_dec : EqDecision byte := Byte.byte_eq_dec.

(** [Module(filename)] on a file of the given content. The loop gets more
    fuel than it has turns ([Module_init_no_timeout]). *)
Definition Module_init (file : bytes) : result wasm_module :=
  let self := {| msize := length file; buf := file; pos := 0;
                 sections := []; section_map := ∅ |} in
  r <-- (magic <- buf_read 4 ;;
         version <- buf_read 4 ;;
         lift (assert (bool_decide (magic = x00 :: String.list_byte_of_string "asm"))) ;;;
         lift (assert (bool_decide (version = [x01; x00; x00; x00]))) ;;;
         readSectionHeaders (S (length file))) self ;;
  Ok (snd r).

(** ** parse_dylink_section *)

(** The [while needed_count:] loop. *)
Fixpoint read_needed (needed_count : nat) (needed : list str) : M (list str) :=
  match needed_count with
  | O => ret needed
  | S needed_count' =>
      libname <- readString ;;
      read_needed needed_count' (needed ++ [libname])
  end.

(** The body of [parse_dylink_section], on the module it has opened. *)
Definition parse_dylink_body : M (N * N * N * N * nat * list str) :=
  fun module =>
    match sections module with
    | [] => Raise IndexError
    | dylink_section :: _ =>
        (lift (assert (sec_type dylink_section =? SecType_value CUSTOM)) ;;;
         let section_size := sec_size dylink_section in
         let section_offset := sec_offset dylink_section in
         let section_end := (section_offset + N.to_nat section_size)%nat in
         seek section_offset ;;;
         section_name <- readString ;;
         lift (assert (bool_decide (section_name = str_of "dylink"))) ;;;
         mem_size <- readULEB ;;
         mem_align <- readULEB ;;
         table_size <- readULEB ;;
         table_align <- readULEB ;;
         needed_count <- readULEB ;;
         needed <- read_needed (N.to_nat needed_count) [] ;;
         ret (mem_size, mem_align, table_size, table_align, section_end, needed))
          module
    end.

Definition parse_dylink_section (wasm_file : bytes)
  : result (N * N * N * N * nat * list str) :=
  module <-- Module_init wasm_file ;;
  r <-- parse_dylink_body module ;;
  Ok (fst r).

(** ** get_imports *)

(** One turn of the [for] loop. *)
Definition read_import (imports : list import_info) : M (list import_info) :=
  mod_ <- readString ;;
  field <- readString ;;
  b <- readByte ;;
  kind <- lift (ExternType.of_value b) ;;
  let imports := imports ++ [Import_ kind mod_ field] in
  match kind with
  | ExternType.FUNC => sig <- readULEB ;; ret imports
  | ExternType.GLOBAL =>
      global_type <- readSLEB ;; mutable <- readByte ;; ret imports
  | ExternType.MEMORY => readLimits ;;; ret imports
  | ExternType.TABLE => table_type <- readSLEB ;; readLimits ;;; ret imports
  | ExternType.EVENT => lift (assert false) ;;; ret imports
  end.

Fixpoint read_imports (num_imports : nat) (imports : list import_info)
  : M (list import_info) :=
  match num_imports with
  | O => ret imports
  | S n => imports <- read_import imports ;; read_imports n imports
  end.

Definition get_imports (wasm_file : bytes) : result (list import_info) :=
  module <-- Module_init wasm_file ;;
  match section_map module !! SecType_value IMPORT with
  | None => Ok []
  | Some import_section =>
      r <-- (seek (sec_offset import_section) ;;;
             num_imports <- readULEB ;;
             read_imports (N.to_nat num_imports) []) module ;;
      Ok (fst r)
  end.

(** ** update_dylink_section *)

(** The [for dyn_needed in needed:] loop. *)
Fixpoint encode_needed (needed : list str) (contents : bytes) : result bytes :=
  match needed with
  | [] => Ok contents
  | dyn_needed :: needed' =>
      dyn_needed <-- utf8.encode dyn_needed ;;
      encode_needed needed'
        (contents ++ toLEB (N.of_nat (length dyn_needed)) ++ dyn_needed)
  end.

(** The function reads the file and writes it anew: it is given the content of
    the file and returns the content it writes. *)
Definition update_dylink_section (orig : bytes) (extra_dynlibs : list str)
  : result bytes :=
  r <-- parse_dylink_section orig ;;
  let '(mem_size, mem_align, table_size, table_align, section_end, needed) := r in
  let section_name := x06 :: String.list_byte_of_string "dylink" in
  let contents := toLEB mem_size ++ toLEB mem_align ++ toLEB table_size ++ toLEB 0 in
  let needed := needed ++ extra_dynlibs in
  let contents := contents ++ toLEB (N.of_nat (length needed)) in
  contents <-- encode_needed needed contents ;;
  let file_header := take 8 orig in
  let file_remainder := drop section_end orig in
  let section_size := (length section_name + length contents)%nat in
  Ok (file_header ++ [x00] ++ toLEB (N.of_nat section_size) ++ section_name
        ++ contents ++ file_remainder).

(** ** add_emscripten_metadata *)

(** Modelled from the spec: [shared.Settings], the global build configuration
    of [tools/shared.py], which is not among the sources. The three settings
    that the writer reads are non-negative integers ([STANDALONE_WASM] is 0 or
    1 in a build, and [int] leaves an integer as it is); [other_settings]
    stands for every other setting of the process. *)
Record Settings : Type :=
  { INITIAL_MEMORY : N;
    GLOBAL_BASE : N;
    STANDALONE_WASM : N;
    other_settings : gmap string N }.

Definition metadata_name : bytes :=
  x13 :: String.list_byte_of_string "emscripten_metadata".

Definition metadata_contents (settings : Settings) : bytes :=
  let mem_size := INITIAL_MEMORY settings / WASM_PAGE_SIZE in
  let global_base := GLOBAL_BASE settings in
  toLEB EMSCRIPTEN_METADATA_MAJOR ++
  toLEB EMSCRIPTEN_METADATA_MINOR ++
  toLEB EMSCRIPTEN_ABI_MAJOR ++
  toLEB EMSCRIPTEN_ABI_MINOR ++
  toLEB 1 ++
  toLEB mem_size ++
  toLEB 0 ++
  toLEB global_base ++
  toLEB 0 ++
  toLEB 0 ++
  toLEB 0 ++
  toLEB (STANDALONE_WASM settings).

(** The function takes the path of the file alone and reads the configuration
    from the global [shared.Settings]: the model is given the settings of the
    process and the content of the file, and returns the content written. *)
Definition add_emscripten_metadata (settings : Settings) (orig : bytes) : bytes :=
  let name := metadata_name in
  let contents := metadata_contents settings in
  let size := (length name + length contents)%nat in
  take 8 orig ++ [x00] ++ toLEB (N.of_nat size) ++ name ++ contents ++ drop 8 orig.

(** ** Section frames

    [frames file p secs q]: from position [p], the bytes of [file] hold the
    section headers [secs] one after the other, each followed by as many
    bytes as its size says, up to position [q]. *)
Inductive frames (file : bytes) : nat -> list section_info -> nat -> Prop :=
| frames_nil p : frames file p [] p
| frames_cons p ty sz n secs q :
    file !! p = Some ty ->
    leb128.u_decode_reader (drop (S p) file) = Ok (sz, n) ->
    frames file (S p + n + N.to_nat sz) secs q ->
    frames file p (Section_ (Byte.to_N ty) sz (S p + n) :: secs) q.

(** The sections of a file tile it when their frames end at its end. *)
Definition tiles (file : bytes) (secs : list section_info) : Prop :=
  frames file 8 secs (length file).

(** The index that the scan builds from the sections it meets, [None] when it
    meets a type other than CUSTOM a second time. *)
Fixpoint index_sections (secs : list section_info) (m : gmap N section_info)
  : option (gmap N section_info) :=
  match secs with
  | [] => Some m
  | s :: secs' =>
      if sec_type s =? SecType_value CUSTOM then index_sections secs' m
      else
        match m !! sec_type s with
        | Some _ => None
        | None => index_sections secs' (<[sec_type s := s]> m)
        end
  end.

(** A section header moved [d] bytes towards the end of the file. *)
Definition shift_section (d : nat) (s : section_info) : section_info :=
  Section_ (sec_type s) (sec_size s) (d + sec_offset s).

(** The module after the scan went on to position [p], met the sections
    [secs] and brought the index to [m]. *)
Definition scanned (self : wasm_module) (p : nat) (secs : list section_info)
    (m : gmap N section_info) : wasm_module :=
  {| msize := msize self; buf := buf self; pos := p;
     sections := sections self ++ secs; section_map := m |}.

(** The magic number and the version. *)
Definition wasm_magic : bytes := x00 :: String.list_byte_of_string "asm".
Definition wasm_version : bytes := [x01; x00; x00; x00].

(** ** The layout of what the writers write *)

(** A byte string behind its length. *)
Definition length_prefixed (s : bytes) : bytes :=
  toLEB (N.of_nat (length s)) ++ s.

(** Unsigned varints one after the other. *)
Definition varints (vs : list N) : bytes := concat (toLEB <$> vs).

(** The fields of the metadata section, in the order of the section. *)
Definition metadata_fields (settings : Settings) : list N :=
  [ EMSCRIPTEN_METADATA_MAJOR; EMSCRIPTEN_METADATA_MINOR;
    EMSCRIPTEN_ABI_MAJOR; EMSCRIPTEN_ABI_MINOR;
    1; INITIAL_MEMORY settings / 65536; 0; GLOBAL_BASE settings;
    0; 0; 0; STANDALONE_WASM settings ].

(** [n] calls of [readULEB]. *)
Fixpoint read_ulebs (n : nat) : M (list N) :=
  match n with
  | O => ret []
  | S n' => v <- readULEB ;; vs <- read_ulebs n' ;; ret (v :: vs)
  end.

(** A custom section of [n] varint fields read back with the methods of the
    module: the type byte, the declared size, the name, the fields, and the
    count of bytes read after the size. *)
Definition read_custom_section (n : nat) : M (N * N * str * list N * nat) :=
  section_type <- readByte ;;
  section_size <- readULEB ;;
  start <- buf_tell ;;
  name <- readString ;;
  fields <- read_ulebs n ;;
  stop <- buf_tell ;;
  ret (section_type, section_size, name, fields, (stop - start)%nat).

(** A string that [encode] accepts, and its encoding. *)
Definition encodes (s : str) (e : bytes) : Prop := utf8.encode s = Ok e.
Definition encodable (s : str) : Prop := exists e, encodes s e.

(** A custom section: the type byte, the length of the body, the body. *)
Definition custom_section (body : bytes) : bytes :=
  [x00] ++ toLEB (N.of_nat (length body)) ++ body.

(** The body of a dylink section: the name, the four numbers, the count of
    the needed names and the needed names, each behind its length. *)
Definition dylink_body (mem_size mem_align table_size table_align : N)
    (needed : list bytes) : bytes :=
  length_prefixed (String.list_byte_of_string "dylink")
    ++ varints [mem_size; mem_align; table_size; table_align]
    ++ toLEB (N.of_nat (length needed))
    ++ concat (length_prefixed <$> needed).

(** A section header of [orig] and the header of the same section in [out]:
    the type and the size are the same, and the offset has moved by the
    difference of the lengths of the two files. *)
Definition moved (orig out : bytes) (s s' : section_info) : Prop :=
  sec_type s' = sec_type s /\ sec_size s' = sec_size s /\
  (sec_offset s' + length orig = sec_offset s + length out)%nat.

(** ** The layout of an import section *)


(** What follows the kind byte of an import, by the kind; the varints are
    held as their bytes, since the reader skips them. *)
Inductive import_payload : Set :=
| PFunc (sig : bytes)
| PGlobal (global_type : bytes) (mutable : byte)
| PMemory (flags : byte) (initial maximum : bytes)
| PTable (table_type : bytes) (flags : byte) (initial maximum : bytes).



Definition payload_kind (p : import_payload) : ExternType.t :=
  match p with
  | PFunc _ => ExternType.FUNC
  | PGlobal _ _ => ExternType.GLOBAL
  | PMemory _ _ _ => ExternType.MEMORY
  | PTable _ _ _ _ => ExternType.TABLE
  end.


(** An entry of an import section. *)
Record import_entry : Set :=
  { entry_mod : str; entry_field : str; entry_payload : import_payload }.





(** The record that [get_imports] returns for an entry. *)
Definition entry_import (e : import_entry) : import_info :=
  Import_ (payload_kind (entry_payload e)) (entry_mod e) (entry_field e).

(** ** Methods that read the stream forwards *)

(** Two objects whose streams have the same bytes ahead. *)
Definition same_stream (s1 s2 : wasm_module) : Prop :=
  drop (pos s1) (buf s1) = drop (pos s2) (buf s2).

(** Two outcomes of a method: the same value with the same bytes ahead, or
    the same exception. *)
Definition same_outcome {A} (r1 r2 : result (A * wasm_module)) : Prop :=
  match r1, r2 with
  | Ok (a1, s1), Ok (a2, s2) => a1 = a2 /\ same_stream s1 s2
  | Raise e1, Raise e2 => e1 = e2
  | Timeout, Timeout => True
  | _, _ => False
  end.

(** A method whose outcome is decided by the bytes ahead in the stream. *)
Definition stream_reader {A} (m : M A) : Prop :=
  forall s1 s2, same_stream s1 s2 -> same_outcome (m s1) (m s2).

(** What [get_imports] returns is a list of such records. *)
Definition import_ok (i : import_info) : Prop :=
  imp_type i <> ExternType.EVENT /\ encodable (imp_mod i) /\ encodable (imp_field i).

(** A position within the payload of a section. *)
Definition in_payload (s : section_info) (i : nat) : Prop :=
  (sec_offset s <= i < sec_offset s + N.to_nat (sec_size s))%nat.

(** ** Example files *)

Module examples.

Definition header : bytes := wasm_magic ++ wasm_version.

(** A build with 16 MiB of initial memory. *)
Definition settings : Settings :=
  {| INITIAL_MEMORY := 16777216; GLOBAL_BASE := 1024; STANDALONE_WASM := 0;
     other_settings := ∅ |}.



(** A dylink section with [mem_size = 16], [mem_align = 4], [table_size = 8],
    [table_align = 4] and [needed = ["a"]], followed by a section of type 1
    with one byte. *)
Definition dylink : bytes :=
  header
    ++ [x00] ++ bytes_of [14] ++ [x06] ++ String.list_byte_of_string "dylink"
    ++ bytes_of [16; 4; 8; 4; 1; 1; 97]
    ++ bytes_of [1; 1; 0].

(** A dylink section of declared size 13, which ends after the length, 2, of
    its one needed name; the two bytes of the name are the header of the
    custom section that follows. *)
Definition dylink_overrun : bytes :=
  header
    ++ [x00] ++ bytes_of [13] ++ [x06] ++ String.list_byte_of_string "dylink"
    ++ bytes_of [1; 1; 1; 1; 1; 2]
    ++ bytes_of [0; 1; 65].




(** A section of type 1 that declares five bytes and has one. *)
Definition overshoot : bytes := header ++ bytes_of [1; 5; 0].

(** Two custom sections. *)
Definition two_custom : bytes := header ++ bytes_of [0; 1; 7; 0; 1; 9].

(** Two sections of type 1. *)
Definition two_type : bytes := header ++ bytes_of [1; 1; 7; 1; 1; 9].

(** An import section with the imports "m"."f" of kind FUNC, "m"."g" of kind
    GLOBAL, "m"."mem" of kind MEMORY and "m"."t" of kind TABLE. *)
Definition imports : bytes :=
  header
    ++ bytes_of [2; 32; 4]
    ++ bytes_of [1; 109; 1; 102; 0; 5]
    ++ bytes_of [1; 109; 1; 103; 3; 0x7F; 0]
    ++ bytes_of [1; 109; 3; 109; 101; 109; 2; 1; 1; 2]
    ++ bytes_of [1; 109; 1; 116; 1; 0x70; 0; 1].

(** The entries of the import section of [imports]. *)
Definition import_entries : list import_entry :=
  [ {| entry_mod := str_of "m"; entry_field := str_of "f";
       entry_payload := PFunc (bytes_of [5]) |};
    {| entry_mod := str_of "m"; entry_field := str_of "g";
       entry_payload := PGlobal (bytes_of [0x7F]) x00 |};
    {| entry_mod := str_of "m"; entry_field := str_of "mem";
       entry_payload := PMemory x01 (bytes_of [1]) (bytes_of [2]) |};
    {| entry_mod := str_of "m"; entry_field := str_of "t";
       entry_payload := PTable (bytes_of [0x70]) x00 (bytes_of [1]) [] |} ].



End examples.

(** * Properties *)

(** [lia] is to solve the goals with a division or a remainder by a constant. *)
Ltac Zify.zify_post_hook ::= Z.to_euclidean_division_equations.

(** ** Bytes *)

Lemma to_N_lt (b : byte) : Byte.to_N b < 256.
Proof. pose proof (Byte.to_N_bounded b). lia. Qed.

Lemma to_N_byte_of_N (n : N) : n < 256 -> Byte.to_N (byte_of_N n) = n.
Proof.
  intros Hn. unfold byte_of_N. rewrite N.mod_small by assumption.
  destruct (Byte.of_N n) as [b|] eqn:E.
  - by apply Byte.to_of_N.
  - apply Byte.of_N_None_iff in E. lia.
Qed.

Lemma byte_of_to_N (b : byte) : byte_of_N (Byte.to_N b) = b.
Proof.
  unfold byte_of_N. rewrite N.mod_small by apply to_N_lt.
  by rewrite Byte.of_to_N.
Qed.

(** ** Outcomes *)

Lemma fails_Raise {A} (e : exception) : fails (@Raise A e).
Proof. by exists e. Qed.

Lemma fails_not_Ok {A} (r : result A) (a : A) : fails r -> r <> Ok a.
Proof. intros [e ->]. discriminate. Qed.

(** ** The varint codec *)

Module leb128_facts.
Import leb128.

Lemma size_nat_le (i : N) (n : nat) :
  (N.size_nat i <= n)%nat <-> i < 2 ^ N.of_nat n.
Proof.
  destruct i as [|p]; simpl.
  - split; [intros _|lia]. apply N.neq_0_lt_0, N.pow_nonzero. discriminate.
  - rewrite <- Zpower2_Psize. rewrite N2Z.inj_lt, N2Z.inj_pow. simpl.
    by rewrite nat_N_Z.
Qed.

Lemma u_encode_aux_fuel (f1 f2 : nat) (i : N) :
  (N.size_nat i <= f1)%nat -> (N.size_nat i <= f2)%nat ->
  u_encode_aux f1 i = u_encode_aux f2 i.
Proof.
  revert f2 i. induction f1 as [|f1 IH]; intros [|f2] i H1 H2; simpl; try done.
  - apply size_nat_le in H1. simpl in H1.
    replace (i / 128 =? 0) with true; [done|].
    symmetry. apply N.eqb_eq. apply N.div_small. lia.
  - apply size_nat_le in H2. simpl in H2.
    replace (i / 128 =? 0) with true; [done|].
    symmetry. apply N.eqb_eq. apply N.div_small. lia.
  - destruct (N.eqb_spec (i / 128) 0) as [|Hne]; [done|].
    f_equal. apply IH; apply size_nat_le.
    + apply size_nat_le in H1. rewrite Nat2N.inj_succ, N.pow_succ_r' in H1.
      apply N.Div0.div_lt_upper_bound; lia.
    + apply size_nat_le in H2. rewrite Nat2N.inj_succ, N.pow_succ_r' in H2.
      apply N.Div0.div_lt_upper_bound; lia.
Qed.

(** The equation of the encoder: the fuel of [u_encode] never runs out. *)
Lemma u_encode_eq (i : N) :
  u_encode i =
    if i / 128 =? 0 then [byte_of_N (i mod 128)]
    else byte_of_N (128 + i mod 128) :: u_encode (i / 128).
Proof.
  unfold u_encode. destruct (N.size_nat i) as [|f] eqn:E.
  - assert (H : i < 2 ^ N.of_nat 0) by (apply size_nat_le; lia).
    simpl in H. simpl.
    replace (i / 128 =? 0) with true; [done|].
    symmetry. apply N.eqb_eq, N.div_small. lia.
  - simpl. destruct (N.eqb_spec (i / 128) 0) as [|Hne]; [done|].
    f_equal. apply u_encode_aux_fuel; [|done].
    apply size_nat_le.
    assert (H : i < 2 ^ N.of_nat (S f)) by (apply size_nat_le; lia).
    rewrite Nat2N.inj_succ, N.pow_succ_r' in H.
    apply N.Div0.div_lt_upper_bound; lia.
Qed.

Lemma u_encode_nonempty (i : N) : u_encode i <> [].
Proof. rewrite u_encode_eq. by destruct (i / 128 =? 0). Qed.

(** Decoding what was encoded, whatever follows it in the stream. *)
Lemma u_decode_encode (i : N) (rest : bytes) :
  u_decode_reader (u_encode i ++ rest) = Ok (i, length (u_encode i)).
Proof.
  induction i as [i IH] using (well_founded_induction N.lt_wf_0).
  rewrite u_encode_eq.
  destruct (N.eqb_spec (i / 128) 0) as [Hz|Hnz].
  - assert (Hi : i < 128) by lia.
    cbn [app u_decode_reader length]. rewrite N.mod_small by done.
    rewrite to_N_byte_of_N by lia.
    by apply N.ltb_lt in Hi as ->.
  - cbn [app u_decode_reader length]. rewrite to_N_byte_of_N by lia.
    replace (128 + i mod 128 <? 128) with false by (symmetry; apply N.ltb_ge; lia).
    rewrite IH by lia.
    do 2 f_equal. lia.
Qed.
End leb128_facts.

(** ** The utf-8 codec *)

Module utf8_facts.
Import utf8.

(** Decides the comparisons of the goal, when [lia] refutes one side. *)
Ltac decide_tests :=
  repeat match goal with
    | |- context [?a =? ?b] =>
        destruct (N.eqb_spec a b); [try lia | try lia]
    | |- context [?a <? ?b] =>
        destruct (N.ltb_spec a b); [try lia | try lia]
    | |- context [?a <=? ?b] =>
        destruct (N.leb_spec a b); [try lia | try lia]
    end.

(** The digits of a code point in base 64, for [lia] to work without
    divisions afterwards. *)
Ltac digits c :=
  let d0 := fresh "d0" in let d1 := fresh "d1" in
  let d2 := fresh "d2" in let d3 := fresh "d3" in
  let E0 := fresh "E0" in let E1 := fresh "E1" in
  let E2 := fresh "E2" in let E3 := fresh "E3" in
  let Hc := fresh "Hc" in
  remember (c mod 64) as d0 eqn:E0;
  remember ((c / 64) mod 64) as d1 eqn:E1;
  remember ((c / 4096) mod 64) as d2 eqn:E2;
  remember (c / 262144) as d3 eqn:E3;
  assert (Hc : c = d3 * 262144 + d2 * 4096 + d1 * 64 + d0 /\
               d0 < 64 /\ d1 < 64 /\ d2 < 64 /\
               c / 64 = d3 * 4096 + d2 * 64 + d1 /\
               c / 4096 = d3 * 64 + d2) by lia;
  clear E0 E1 E2 E3;
  let Hq1 := fresh "Hq" in let Hq2 := fresh "Hq" in
  destruct Hc as (Hc & ? & ? & ? & Hq1 & Hq2);
  rewrite ?Hq1, ?Hq2; clear Hq1 Hq2.

Lemma decode_encode_char (c : N) (e rest : bytes) :
  encode_char c = Ok e ->
  decode (e ++ rest) = (s <-- decode rest ;; Ok (c :: s)).
Proof.
  unfold encode_char. intros H.
  destruct (N.ltb_spec c 0x80); [|destruct (N.ltb_spec c 0x800);
    [|destruct (N.ltb_spec c 0x10000); [|destruct (N.ltb_spec c 0x110000)]]];
    [| | destruct (N.leb_spec 0xD800 c); destruct (N.ltb_spec c 0xE000) | |];
    cbn [andb] in H; try discriminate; injection H as <-;
    digits c;
    cbn [app decode]; unfold cont, between, low6;
    rewrite !to_N_byte_of_N by lia; decide_tests; cbn [andb];
    destruct (decode rest); cbn; try done; do 2 f_equal; lia.
Qed.

Lemma decode_encode (s : str) (bs : bytes) :
  encode s = Ok bs -> decode bs = Ok s.
Proof.
  revert bs. induction s as [|c s IH]; intros bs H; cbn [encode] in H.
  - by injection H as <-.
  - destruct (encode_char c) as [e| |] eqn:Ec; cbn in H; try discriminate.
    destruct (encode s) as [r| |]; cbn in H; try discriminate.
    injection H as <-. rewrite (decode_encode_char c e r Ec).
    by rewrite (IH r eq_refl).
Qed.

Lemma byte_of_N_eq (n : N) (b : byte) : n = Byte.to_N b -> byte_of_N n = b.
Proof. intros ->. apply byte_of_to_N. Qed.

Lemma encode_decode (bs : bytes) (s : str) :
  decode bs = Ok s -> encode s = Ok bs.
Proof.
  remember (length bs) as n eqn:Hn. revert bs s Hn.
  induction n as [n IH] using lt_wf_ind. intros bs s Hn Hdec.
  destruct bs as [|b0 r0]; cbn [decode] in Hdec.
  { by injection Hdec as <-. }
  pose proof (to_N_lt b0) as Hb0. cbn [length] in Hn.
  destruct (N.ltb_spec (Byte.to_N b0) 0x80).
  { destruct (decode r0) as [s'| |] eqn:E; cbn in Hdec; try discriminate.
    injection Hdec as <-. cbn [encode]. unfold encode_char.
    decide_tests. rewrite byte_of_to_N.
    rewrite (IH (length r0) ltac:(lia) r0 s' eq_refl E). done. }
  destruct (N.ltb_spec (Byte.to_N b0) 0xC2); [discriminate|].
  destruct (N.ltb_spec (Byte.to_N b0) 0xE0).
  { destruct r0 as [|b1 r1]; [discriminate|].
    pose proof (to_N_lt b1). unfold cont, between, low6 in Hdec.
    revert Hdec. decide_tests; cbn [andb]; intros Hdec; try discriminate.
    destruct (decode r1) as [s'| |] eqn:E; cbn in Hdec; try discriminate.
    injection Hdec as <-. cbn [encode]. unfold encode_char.
    decide_tests. cbn [length] in Hn.
    rewrite (IH (length r1) ltac:(lia) r1 s' eq_refl E). cbn.
    rewrite (byte_of_N_eq _ b0) by lia. rewrite (byte_of_N_eq _ b1) by lia.
    done. }
  destruct (N.ltb_spec (Byte.to_N b0) 0xF0).
  { destruct r0 as [|b1 [|b2 r2]]; try discriminate.
    pose proof (to_N_lt b1). pose proof (to_N_lt b2).
    unfold cont, between, low6 in Hdec.
    revert Hdec. decide_tests; cbn [andb]; intros Hdec; try discriminate;
    (destruct (decode r2) as [s'| |] eqn:E; cbn in Hdec; try discriminate;
     injection Hdec as <-; cbn [encode]; unfold encode_char;
     decide_tests; cbn [andb length] in *;
     rewrite (IH (length r2) ltac:(lia) r2 s' eq_refl E); cbn;
     rewrite (byte_of_N_eq _ b0) by lia; rewrite (byte_of_N_eq _ b1) by lia;
     rewrite (byte_of_N_eq _ b2) by lia; done). }
  destruct (N.ltb_spec (Byte.to_N b0) 0xF5); [|discriminate].
  destruct r0 as [|b1 [|b2 [|b3 r3]]]; try discriminate.
  pose proof (to_N_lt b1). pose proof (to_N_lt b2). pose proof (to_N_lt b3).
  unfold cont, between, low6 in Hdec.
  revert Hdec. decide_tests; cbn [andb]; intros Hdec; try discriminate;
  (destruct (decode r3) as [s'| |] eqn:E; cbn in Hdec; try discriminate;
   injection Hdec as <-; cbn [encode]; unfold encode_char;
   decide_tests; cbn [andb length] in *;
   rewrite (IH (length r3) ltac:(lia) r3 s' eq_refl E); cbn;
   rewrite (byte_of_N_eq _ b0) by lia; rewrite (byte_of_N_eq _ b1) by lia;
   rewrite (byte_of_N_eq _ b2) by lia; rewrite (byte_of_N_eq _ b3) by lia;
   done).
Qed.

End utf8_facts.

(** ** The methods of the reader *)

Lemma bind_Ok {A B} (m : M A) (k : A -> M B) self a self' :
  m self = Ok (a, self') -> bind m k self = k a self'.
Proof. unfold bind. by intros ->. Qed.


Lemma bind_Ok_inv {A B} (m : M A) (k : A -> M B) self r :
  bind m k self = Ok r ->
  exists a self', m self = Ok (a, self') /\ k a self' = Ok r.
Proof.
  unfold bind. destruct (m self) as [[a self']| |]; try discriminate. eauto.
Qed.

Lemma drop_app_rest {A} (l x r : list A) (p : nat) :
  drop p l = x ++ r -> drop (p + length x) l = r.
Proof.
  intros H. rewrite <- drop_drop, H. apply drop_app_length.
Qed.

Lemma buf_read_app (x rest : bytes) self :
  drop (pos self) (buf self) = x ++ rest ->
  buf_read (length x) self = Ok (x, set_pos self (pos self + length x)).
Proof.
  intros H. unfold buf_read. rewrite H, take_app_length. done.
Qed.

Lemma readByte_cons (b : byte) (rest : bytes) self :
  drop (pos self) (buf self) = b :: rest ->
  readByte self = Ok (Byte.to_N b, set_pos self (S (pos self))).
Proof.
  intros H. unfold readByte, bind, buf_read. rewrite H. cbn.
  by rewrite Nat.add_1_r.
Qed.

Lemma readULEB_encode (v : N) (rest : bytes) self :
  drop (pos self) (buf self) = toLEB v ++ rest ->
  readULEB self = Ok (v, set_pos self (pos self + length (toLEB v))).
Proof.
  intros H. unfold readULEB. rewrite H. unfold toLEB.
  by rewrite leb128_facts.u_decode_encode.
Qed.

Lemma readString_encode (s : str) (e rest : bytes) self :
  utf8.encode s = Ok e ->
  drop (pos self) (buf self) = toLEB (N.of_nat (length e)) ++ e ++ rest ->
  readString self =
    Ok (s, set_pos self (pos self + length (toLEB (N.of_nat (length e))) + length e)).
Proof.
  intros He H. unfold readString.
  rewrite (bind_Ok _ _ _ _ _ (readULEB_encode _ _ _ H)).
  apply drop_app_rest in H. rewrite Nat2N.id.
  erewrite bind_Ok; [|by apply (buf_read_app e rest)].
  unfold lift. rewrite (utf8_facts.decode_encode _ _ He). done.
Qed.

(** ** The scan of the section headers *)

Lemma u_decode_length (r : bytes) (v : N) (n : nat) :
  leb128.u_decode_reader r = Ok (v, n) -> (1 <= n <= length r)%nat.
Proof.
  revert v n. induction r as [|b r IH]; intros v n H; cbn in H; [discriminate|].
  destruct (Byte.to_N b <? 128).
  - injection H as <- <-. cbn. lia.
  - destruct (leb128.u_decode_reader r) as [[v' n']| |]; try discriminate.
    injection H as <- <-. specialize (IH _ _ eq_refl). cbn. lia.
Qed.

Lemma u_decode_no_timeout (r : bytes) : leb128.u_decode_reader r <> Timeout.
Proof.
  induction r as [|b r IH]; cbn; [discriminate|].
  destruct (Byte.to_N b <? 128); [discriminate|].
  by destruct (leb128.u_decode_reader r) as [[v' n']| |].
Qed.

(** One turn of the loop, by what is at the position of the stream. *)
Lemma readSectionHeaders_turn (fuel : nat) (self : wasm_module) :
  readSectionHeaders (S fuel) self =
    if (pos self =? msize self)%nat then Ok (tt, self)
    else
      match buf self !! pos self with
      | None => Raise IndexError
      | Some ty =>
          match leb128.u_decode_reader (drop (S (pos self)) (buf self)) with
          | Ok (sz, n) =>
              let s := Section_ (Byte.to_N ty) sz (S (pos self) + n) in
              let p := (S (pos self) + n + N.to_nat sz)%nat in
              if Byte.to_N ty =? SecType_value CUSTOM then
                readSectionHeaders fuel (scanned self p [s] (section_map self))
              else
                match section_map self !! Byte.to_N ty with
                | Some _ => Raise AssertionError
                | None =>
                    readSectionHeaders fuel
                      (scanned self p [s] (<[Byte.to_N ty := s]> (section_map self)))
                end
          | Raise e => Raise e
          | Timeout => Timeout
          end
      end.
Proof.
  cbn [readSectionHeaders]. destruct (pos self =? msize self)%nat; [done|].
  unfold bind at 1. unfold readByte, bind at 1, buf_read.
  destruct (buf self !! pos self) as [ty|] eqn:Ety.
  - rewrite (drop_S _ _ _ Ety). cbn [take length lookup]. cbn [ret raise].
    unfold bind at 1, readULEB. cbn [pos buf set_pos].
    rewrite Nat.add_1_r.
    destruct (leb128.u_decode_reader _) as [[sz n]| |]; [|reflexivity|reflexivity].
    unfold bind, buf_tell, sections_append, seek, set_pos, scanned. cbn.
    destruct (Byte.to_N ty =? 0); cbn; [done|].
    destruct (section_map self !! Byte.to_N ty) as [s0|] eqn:Es.
    + rewrite bool_decide_eq_true_2 by eauto. done.
    + rewrite bool_decide_eq_false_2 by (intros [? ?]; congruence). done.
  - rewrite drop_ge by (by apply lookup_ge_None). done.
Qed.

Lemma scanned_scanned self p1 s1 m1 p2 s2 m2 :
  scanned (scanned self p1 s1 m1) p2 s2 m2 = scanned self p2 (s1 ++ s2) m2.
Proof. unfold scanned. cbn. by rewrite app_assoc. Qed.

Lemma scanned_id self :
  scanned self (pos self) [] (section_map self) = self.
Proof. destruct self. unfold scanned. cbn. by rewrite app_nil_r. Qed.

(** The scan follows the frames, and stops at a duplicate. *)
Lemma readSectionHeaders_frames file p secs q :
  frames file p secs q ->
  forall self fuel,
    buf self = file -> pos self = p -> msize self = length file ->
    readSectionHeaders (length secs + fuel) self =
      match index_sections secs (section_map self) with
      | Some m => readSectionHeaders fuel (scanned self q secs m)
      | None => Raise AssertionError
      end.
Proof.
  induction 1 as [p|p ty sz n secs q Hty Hdec Hfr IH]; intros self fuel Hb Hp Hs.
  - cbn. by rewrite <- Hp, scanned_id.
  - cbn [length Nat.add index_sections sec_type].
    rewrite readSectionHeaders_turn.
    replace (pos self =? msize self)%nat with false.
    2:{ symmetry. apply Nat.eqb_neq. apply lookup_lt_Some in Hty. lia. }
    rewrite Hb, Hp, Hty, Hdec. cbn zeta.
    destruct (Byte.to_N ty =? SecType_value CUSTOM).
    + rewrite IH by done. cbn [section_map scanned].
      destruct (index_sections secs (section_map self)); [|done].
      by rewrite scanned_scanned.
    + destruct (section_map self !! Byte.to_N ty); [done|].
      rewrite IH by done. cbn [section_map scanned].
      destruct (index_sections secs _); [|done].
      by rewrite scanned_scanned.
Qed.

(** A scan that returns has followed frames that end at the end of the file. *)
Lemma readSectionHeaders_Ok_inv fuel :
  forall self self',
    msize self = length (buf self) ->
    readSectionHeaders fuel self = Ok (tt, self') ->
    exists secs m,
      frames (buf self) (pos self) secs (length (buf self)) /\
      index_sections secs (section_map self) = Some m /\
      self' = scanned self (length (buf self)) secs m.
Proof.
  induction fuel as [|fuel IH]; intros self self' Hs H.
  - cbn in H. destruct (Nat.eqb_spec (pos self) (msize self)) as [E|Hne]; [|done].
    injection H as <-. exists [], (section_map self). rewrite <- Hs, <- E.
    split; [constructor|]. by rewrite scanned_id.
  - rewrite readSectionHeaders_turn in H.
    destruct (Nat.eqb_spec (pos self) (msize self)) as [E|Hne].
    { injection H as <-. exists [], (section_map self). rewrite <- Hs, <- E.
      split; [constructor|]. by rewrite scanned_id. }
    destruct (buf self !! pos self) as [ty|] eqn:Ety; [|done].
    destruct (leb128.u_decode_reader _) as [[sz n]| |] eqn:Edec; try done.
    cbn zeta in H.
    destruct (Byte.to_N ty =? SecType_value CUSTOM) eqn:Ecus.
    + apply IH in H as (secs & m & Hfr & Hidx & ->); [|done].
      cbn [scanned buf pos section_map] in *.
      eexists (_ :: secs), m. split; [by econstructor|].
      cbn [index_sections sec_type]. rewrite Ecus.
      split; [done|]. by rewrite scanned_scanned.
    + destruct (section_map self !! Byte.to_N ty) eqn:Emap; [done|].
      apply IH in H as (secs & m & Hfr & Hidx & ->); [|done].
      cbn [scanned buf pos section_map] in *.
      eexists (_ :: secs), m. split; [by econstructor|].
      cbn [index_sections sec_type]. rewrite Ecus, Emap.
      split; [done|]. by rewrite scanned_scanned.
Qed.

(** The fuel is enough: a scan with more fuel than bytes ahead does not run
    out of it. *)
Lemma readSectionHeaders_no_timeout fuel :
  forall self,
    msize self = length (buf self) ->
    (length (buf self) - pos self < fuel)%nat ->
    readSectionHeaders fuel self <> Timeout.
Proof.
  induction fuel as [|fuel IH]; intros self Hs Hf; [lia|].
  rewrite readSectionHeaders_turn.
  destruct (Nat.eqb_spec (pos self) (msize self)) as [E|Hne]; [done|].
  destruct (buf self !! pos self) as [ty|] eqn:Ety; [|done].
  apply lookup_lt_Some in Ety.
  destruct (leb128.u_decode_reader _) as [[sz n]| |] eqn:Edec; try done.
  - apply u_decode_length in Edec. cbn zeta.
    destruct (Byte.to_N ty =? SecType_value CUSTOM).
    + apply IH; cbn; [done|lia].
    + destruct (section_map self !! Byte.to_N ty); [done|].
      apply IH; cbn; [done|lia].
  - by apply u_decode_no_timeout in Edec.
Qed.

(** Frames start inside the file, so there are no more of them than bytes. *)
Lemma frames_length file p secs q :
  frames file p secs q -> (length secs <= length file - p)%nat.
Proof.
  induction 1 as [p|p ty sz n secs q Hty Hdec Hfr IH]; cbn; [lia|].
  apply lookup_lt_Some in Hty. apply u_decode_length in Hdec.
  destruct secs; cbn in *; lia.
Qed.

(** ** Opening a module *)

Lemma readSectionHeaders_end fuel self :
  pos self = msize self -> readSectionHeaders fuel self = Ok (tt, self).
Proof.
  intros E. destruct fuel; cbn [readSectionHeaders];
    by apply Nat.eqb_eq in E as ->.
Qed.

Lemma Module_init_eq (file : bytes) :
  Module_init file =
    if bool_decide (take 4 file = wasm_magic) then
      if bool_decide (take 4 (drop 4 file) = wasm_version) then
        r <-- readSectionHeaders (S (length file))
                (Module_ (length file) file 8 [] ∅) ;;
        Ok (snd r)
      else Raise AssertionError
    else Raise AssertionError.
Proof.
  unfold Module_init.
  change (x00 :: String.list_byte_of_string "asm") with wasm_magic.
  change [x01; x00; x00; x00] with wasm_version.
  unfold bind, buf_read, lift, set_pos.
  cbn -[readSectionHeaders wasm_magic wasm_version]. rewrite !drop_0.
  case_bool_decide as Hm; cbn -[readSectionHeaders wasm_magic wasm_version]; [|done].
  assert (Hl : length (take 4 file) = 4%nat) by (by rewrite Hm).
  rewrite Hl. case_bool_decide as Hv; cbn -[readSectionHeaders wasm_magic wasm_version]; [|done].
  assert (Hl' : length (take 4 (drop 4 file)) = 4%nat) by (by rewrite Hv).
  by rewrite Hl'.
Qed.

(** A file with the header whose sections tile it, no type other than CUSTOM
    twice, opens, with the sections in the order of the file and their index. *)
Lemma Module_init_tiles (file : bytes) secs m :
  take 4 file = wasm_magic -> take 4 (drop 4 file) = wasm_version ->
  tiles file secs -> index_sections secs ∅ = Some m ->
  Module_init file = Ok (Module_ (length file) file (length file) secs m).
Proof.
  intros Hm Hv Hfr Hidx. rewrite Module_init_eq.
  rewrite !bool_decide_eq_true_2 by done.
  pose proof (frames_length _ _ _ _ Hfr) as Hlen.
  replace (S (length file)) with (length secs + (S (length file) - length secs))%nat by lia.
  erewrite readSectionHeaders_frames by (exact Hfr || done).
  cbn [section_map]. rewrite Hidx.
  rewrite readSectionHeaders_end by done. done.
Qed.

(** A file whose frames come to a type other than CUSTOM for the second time
    does not open. *)
Lemma Module_init_duplicate (file : bytes) secs q :
  take 4 file = wasm_magic -> take 4 (drop 4 file) = wasm_version ->
  frames file 8 secs q -> index_sections secs ∅ = None ->
  Module_init file = Raise AssertionError.
Proof.
  intros Hm Hv Hfr Hidx. rewrite Module_init_eq.
  rewrite !bool_decide_eq_true_2 by done.
  pose proof (frames_length _ _ _ _ Hfr) as Hlen.
  replace (S (length file)) with (length secs + (S (length file) - length secs))%nat by lia.
  erewrite readSectionHeaders_frames by (exact Hfr || done).
  cbn [section_map]. by rewrite Hidx.
Qed.

(** What a module that opened is made of. *)
Lemma Module_init_Ok_inv (file : bytes) (module : wasm_module) :
  Module_init file = Ok module ->
  take 4 file = wasm_magic /\ take 4 (drop 4 file) = wasm_version /\
  exists secs m,
    tiles file secs /\ index_sections secs ∅ = Some m /\
    module = Module_ (length file) file (length file) secs m.
Proof.
  rewrite Module_init_eq. intros H.
  case_bool_decide as Hm; [|done]. case_bool_decide as Hv; [|done].
  split; [done|]. split; [done|].
  destruct (readSectionHeaders _ _) as [[[] self']| |] eqn:E; try done.
  injection H as <-.
  apply readSectionHeaders_Ok_inv in E as (secs & m & Hfr & Hidx & ->); [|done].
  by exists secs, m.
Qed.

(** The model of the scan has fuel enough for any file. *)
Lemma Module_init_no_timeout (file : bytes) : Module_init file <> Timeout.
Proof.
  rewrite Module_init_eq.
  case_bool_decide; [|done]. case_bool_decide; [|done].
  destruct (readSectionHeaders _ _) as [[[] self']| |] eqn:E; try done.
  apply readSectionHeaders_no_timeout in E; [done|done|cbn; lia].
Qed.

(** A header of eight bytes. *)
Lemma header_length (file : bytes) :
  take 4 file = wasm_magic -> take 4 (drop 4 file) = wasm_version ->
  (8 <= length file)%nat /\ take 8 file = wasm_magic ++ wasm_version.
Proof.
  intros Hm Hv.
  assert (H4 : length (take 4 (drop 4 file)) = 4%nat) by (by rewrite Hv).
  rewrite length_take, length_drop in H4. split; [lia|].
  rewrite <- Hm, <- Hv. rewrite <- (take_drop 4 file) at 1.
  rewrite take_app_ge by (rewrite length_take; lia).
  rewrite length_take. by replace (8 - 4 `min` length file)%nat with 4%nat by lia.
Qed.

(** ** The index of the sections *)

Lemma index_sections_fresh secs m0 m s :
  index_sections secs m0 = Some m ->
  s ∈ secs -> sec_type s <> SecType_value CUSTOM -> m0 !! sec_type s = None.
Proof.
  revert m0. induction secs as [|s0 secs IH]; intros m0 H Hin Hne.
  - by apply elem_of_nil in Hin.
  - cbn [index_sections] in H. apply elem_of_cons in Hin as [->|Hin].
    + destruct (N.eqb_spec (sec_type s0) (SecType_value CUSTOM)); [done|].
      by destruct (m0 !! sec_type s0).
    + destruct (sec_type s0 =? SecType_value CUSTOM); [by eapply IH|].
      destruct (m0 !! sec_type s0) eqn:E0; [done|].
      specialize (IH _ H Hin Hne). by apply lookup_insert_None in IH as [? _].
Qed.

(** The index holds what it held and the sections of a type other than
    CUSTOM, each under its type. *)
Lemma index_sections_lookup secs m0 m t s :
  index_sections secs m0 = Some m ->
  m !! t = Some s <->
  m0 !! t = Some s \/ (s ∈ secs /\ sec_type s = t /\ t <> SecType_value CUSTOM).
Proof.
  revert m0. induction secs as [|s0 secs IH]; intros m0 H; cbn [index_sections] in H.
  - injection H as ->. split; [by left|]. intros [|[Hin _]]; [done|].
    by apply elem_of_nil in Hin.
  - destruct (N.eqb_spec (sec_type s0) (SecType_value CUSTOM)) as [E0|E0].
    + rewrite (IH _ H). split; intros [|(Hin & Ht & Hne)]; auto.
      * right. split; [by right|done].
      * apply elem_of_cons in Hin as [->|Hin]; [congruence|]. by right.
    + destruct (m0 !! sec_type s0) eqn:Em; [done|].
      rewrite (IH _ H). split.
      * intros [Hl|(Hin & Ht & Hne)].
        -- apply lookup_insert_Some in Hl as [[<- <-]|[? ?]]; [|by left].
           right. split; [by left|done].
        -- right. split; [by right|done].
      * intros [Hl|(Hin & Ht & Hne)].
        -- left. rewrite lookup_insert_ne; [done|]. intros <-. congruence.
        -- apply elem_of_cons in Hin as [->|Hin]; [|by right].
           left. subst t. by rewrite lookup_insert_eq.
Qed.

(** No two sections of an index share a type other than CUSTOM. *)
Lemma index_sections_unique secs m0 m i j s1 s2 :
  index_sections secs m0 = Some m ->
  secs !! i = Some s1 -> secs !! j = Some s2 ->
  sec_type s1 = sec_type s2 -> sec_type s1 <> SecType_value CUSTOM ->
  i = j.
Proof.
  revert m0 i j. induction secs as [|s0 secs IH]; intros m0 i j H Hi Hj Ht Hne.
  - done.
  - cbn [index_sections] in H.
    assert (Hhead : forall s, s ∈ secs -> sec_type s = sec_type s0 ->
                      sec_type s0 <> SecType_value CUSTOM -> False).
    { intros s Hin Hs Hn.
      destruct (N.eqb_spec (sec_type s0) (SecType_value CUSTOM)); [done|].
      destruct (m0 !! sec_type s0) eqn:Em; [done|].
      pose proof (index_sections_fresh _ _ _ s H Hin ltac:(congruence)) as Hf.
      rewrite Hs, lookup_insert_eq in Hf. done. }
    destruct i as [|i], j as [|j]; cbn in Hi, Hj.
    + done.
    + injection Hi as ->. exfalso.
      apply (Hhead s2); [by eapply list_elem_of_lookup_2|done|done].
    + injection Hj as ->. exfalso.
      apply (Hhead s1); [by eapply list_elem_of_lookup_2|done|congruence].
    + f_equal. destruct (sec_type s0 =? SecType_value CUSTOM).
      * by eapply IH.
      * destruct (m0 !! sec_type s0); [done|]. by eapply IH.
Qed.

(** Two sections of one type other than CUSTOM have no index. *)
Lemma index_sections_duplicate secs m0 i j s1 s2 :
  secs !! i = Some s1 -> secs !! j = Some s2 -> i <> j ->
  sec_type s1 = sec_type s2 -> sec_type s1 <> SecType_value CUSTOM ->
  index_sections secs m0 = None.
Proof.
  intros Hi Hj Hne Ht Hc.
  destruct (index_sections secs m0) as [m|] eqn:E; [|done].
  by pose proof (index_sections_unique _ _ _ _ _ _ _ E Hi Hj Ht Hc).
Qed.

(** The index of moved sections is the index moved. *)
Lemma index_sections_shift d (secs : list section_info)
    (m0 : gmap N section_info) :
  index_sections (shift_section d <$> secs) (shift_section d <$> m0) =
    (fun m : gmap N section_info => shift_section d <$> m) <$>
      index_sections secs m0.
Proof.
  revert m0. induction secs as [|s secs IH]; intros m0; [done|].
  cbn [fmap list_fmap index_sections shift_section sec_type].
  destruct (sec_type s =? SecType_value CUSTOM); [apply IH|].
  rewrite lookup_fmap. destruct (m0 !! sec_type s); [done|]. cbn.
  rewrite <- IH. by rewrite fmap_insert.
Qed.

(** ** Frames and the bytes before them *)

(** The frames of a file are those of what follows any prefix of it. *)
Lemma frames_app (a l : bytes) k (secs : list section_info) q :
  frames l k secs q ->
  frames (a ++ l) (length a + k) (shift_section (length a) <$> secs) (length a + q).
Proof.
  induction 1 as [p|p ty sz n secs q Hty Hdec Hfr IH]; [constructor|].
  cbn [fmap list_fmap]. unfold shift_section at 1.
  cbn [sec_type sec_size sec_offset].
  replace (length a + (S p + n))%nat with (S (length a + p) + n)%nat by lia.
  constructor.
  - rewrite lookup_app_r by lia. by replace (length a + p - length a)%nat with p by lia.
  - rewrite drop_app_ge by lia.
    by replace (S (length a + p) - length a)%nat with (S p) by lia.
  - by replace (S (length a + p) + n + N.to_nat sz)%nat
      with (length a + (S p + n + N.to_nat sz))%nat by lia.
Qed.

Lemma frames_app_inv (a l : bytes) p secs q :
  frames (a ++ l) p secs q ->
  forall k, p = (length a + k)%nat ->
  exists rsecs r,
    secs = shift_section (length a) <$> rsecs /\ q = (length a + r)%nat /\
    frames l k rsecs r.
Proof.
  induction 1 as [p|p ty sz n secs q Hty Hdec Hfr IH]; intros k ->.
  - exists [], k. split; [done|]. split; [done|constructor].
  - assert (E : (S (length a + k) + n + N.to_nat sz =
                 length a + (S k + n + N.to_nat sz))%nat) by lia.
    destruct (IH _ E) as (rsecs & r & -> & -> & Hr).
    exists (Section_ (Byte.to_N ty) sz (S k + n) :: rsecs), r.
    split; [|split; [done|]].
    + cbn [fmap list_fmap]. f_equal. unfold shift_section.
      cbn [sec_type sec_size sec_offset]. f_equal. lia.
    + constructor; [| |done].
      * rewrite lookup_app_r in Hty by lia.
        by replace (length a + k - length a)%nat with k in Hty by lia.
      * rewrite drop_app_ge in Hdec by lia.
        by replace (S (length a + k) - length a)%nat with (S k) in Hdec by lia.
Qed.

(** Frames go towards the end of the file, and stay within it when they end
    at its end. *)
Lemma frames_le file p secs q : frames file p secs q -> (p <= q)%nat.
Proof. induction 1; lia. Qed.

(** The frames after the first one. *)
Lemma frames_tail file p s secs q :
  frames file p (s :: secs) q ->
  frames file (sec_offset s + N.to_nat (sec_size s)) secs q /\
  (p < sec_offset s)%nat /\
  file !! p = Some (byte_of_N (sec_type s)).
Proof.
  inversion 1 as [|p' ty sz n secs' q' Hty Hdec Hfr]; subst. cbn.
  apply u_decode_length in Hdec.
  split; [done|]. split; [lia|]. by rewrite byte_of_to_N.
Qed.

(** ** Reading what was written *)

Lemma set_pos_set_pos self p q : set_pos (set_pos self p) q = set_pos self q.
Proof. done. Qed.


Lemma read_ulebs_varints (vs : list N) (rest : bytes) self :
  drop (pos self) (buf self) = varints vs ++ rest ->
  read_ulebs (length vs) self =
    Ok (vs, set_pos self (pos self + length (varints vs))).
Proof.
  revert self. induction vs as [|v vs IH]; intros self H.
  - cbn. unfold ret. rewrite Nat.add_0_r. by destruct self.
  - cbn [length read_ulebs]. unfold varints in *. cbn [fmap list_fmap concat] in *.
    rewrite <- app_assoc in H.
    rewrite (bind_Ok _ _ _ _ _ (readULEB_encode _ _ _ H)).
    apply drop_app_rest in H.
    erewrite bind_Ok; [|by apply IH].
    unfold ret. cbn [pos set_pos]. rewrite set_pos_set_pos, length_app.
    by rewrite Nat.add_assoc.
Qed.

Lemma length_prefixed_length (s : bytes) :
  length (length_prefixed s) = (length (toLEB (N.of_nat (length s))) + length s)%nat.
Proof. unfold length_prefixed. by rewrite length_app. Qed.

(** The name of the source is the name behind its length. *)
Lemma metadata_name_eq :
  metadata_name = length_prefixed (String.list_byte_of_string "emscripten_metadata").
Proof. reflexivity. Qed.

Lemma metadata_name_encode :
  utf8.encode (str_of "emscripten_metadata") =
    Ok (String.list_byte_of_string "emscripten_metadata").
Proof. reflexivity. Qed.

Lemma metadata_contents_eq (settings : Settings) :
  metadata_contents settings = varints (metadata_fields settings).
Proof.
  unfold metadata_contents, varints, metadata_fields, WASM_PAGE_SIZE.
  cbn [fmap list_fmap concat]. by rewrite app_nil_r.
Qed.

(** A custom section of varint fields, read back. *)
Lemma read_custom_section_varints self (sz : N) (name : str)
    (name_bytes : bytes) (fields : list N) (rest : bytes) :
  utf8.encode name = Ok name_bytes ->
  drop (pos self) (buf self) =
    [x00] ++ toLEB sz ++ length_prefixed name_bytes ++ varints fields ++ rest ->
  read_custom_section (length fields) self =
    Ok ((0, sz, name, fields,
         length (length_prefixed name_bytes ++ varints fields)),
        set_pos self
          (pos self + 1 + length (toLEB sz)
           + length (length_prefixed name_bytes ++ varints fields))).
Proof.
  intros Hname H0. unfold read_custom_section.
  rewrite (bind_Ok _ _ _ _ _ (readByte_cons x00 _ _ H0)).
  apply (drop_app_rest _ [x00]) in H0. cbn [length] in H0.
  rewrite Nat.add_1_r in H0.
  erewrite bind_Ok; [|eapply readULEB_encode; cbn [pos buf set_pos]; exact H0].
  apply drop_app_rest in H0.
  cbn [pos set_pos]. rewrite set_pos_set_pos.
  unfold bind at 1, buf_tell at 1. cbn [pos set_pos].
  unfold length_prefixed in H0. rewrite <- !app_assoc in H0.
  erewrite bind_Ok.
  2:{ eapply readString_encode; [exact Hname|]. cbn [pos buf set_pos]. exact H0. }
  apply drop_app_rest, drop_app_rest in H0.
  cbn [pos set_pos]. rewrite set_pos_set_pos.
  erewrite bind_Ok.
  2:{ apply (read_ulebs_varints fields rest).
      cbn [pos buf set_pos]. rewrite <- H0. f_equal; lia. }
  cbn [pos set_pos]. rewrite set_pos_set_pos.
  unfold bind, buf_tell, ret. cbn [pos set_pos].
  rewrite length_app, length_prefixed_length.
  do 2 f_equal; [do 2 f_equal|f_equal]; lia.
Qed.

(** C3: after [add_emscripten_metadata] the file is the eight bytes of the
    header, the byte 0, the varint of the length of what follows in the
    section, the name "emscripten_metadata" behind its length, the twelve
    varints of [metadata_fields] in their order, and the bytes of the
    original file from offset 8 on; read back with the methods of the module
    from offset 8, the section has type 0, the declared size is the count of
    bytes it is read in, the name and the twelve fields are these, and the
    stream is then at the bytes of the original file from offset 8 on. *)
Theorem metadata_section_layout (settings : Settings) (orig : bytes) :
  (8 <= length orig)%nat ->
  let body :=
    length_prefixed (String.list_byte_of_string "emscripten_metadata")
      ++ varints (metadata_fields settings) in
  let out := add_emscripten_metadata settings orig in
  out = take 8 orig ++ [x00] ++ toLEB (N.of_nat (length body)) ++ body
          ++ drop 8 orig /\
  length (metadata_fields settings) = 12%nat /\
  exists final,
    read_custom_section 12 (Module_ (length out) out 8 [] ∅) =
      Ok ((0, N.of_nat (length body), str_of "emscripten_metadata",
           metadata_fields settings, length body), final) /\
    drop (pos final) out = drop 8 orig.
Proof.
  intros Hlen body out.
  assert (Hout : out = take 8 orig ++ [x00] ++ toLEB (N.of_nat (length body))
                         ++ body ++ drop 8 orig).
  { unfold out, add_emscripten_metadata, body.
    rewrite metadata_name_eq, metadata_contents_eq.
    rewrite <- length_app. by rewrite <- !app_assoc. }
  split; [done|]. split; [done|].
  set (self := Module_ (length out) out 8 [] ∅).
  assert (H8 : length (take 8 orig) = 8%nat) by (rewrite length_take; lia).
  assert (H0 : drop (pos self) (buf self) =
               [x00] ++ toLEB (N.of_nat (length body)) ++ body ++ drop 8 orig).
  { cbn [pos buf self]. rewrite Hout at 1. rewrite <- H8 at 1.
    by rewrite drop_app_length. }
  unfold body in H0 at 2. rewrite <- app_assoc in H0.
  eexists. split.
  - apply (read_custom_section_varints self _ _ _ (metadata_fields settings) _
             metadata_name_encode H0).
  - cbn [pos set_pos]. fold body.
    do 4 apply drop_app_rest in H0.
    rewrite <- H0. cbn [buf self]. f_equal. unfold body.
    rewrite length_app. cbn [length]. lia.
Qed.

Lemma metadata_section_layout_witness :
  (8 <= length examples.dylink)%nat /\
  length (metadata_fields examples.settings) = 12%nat.
Proof.
  split; [vm_compute; lia|].
  apply (metadata_section_layout examples.settings examples.dylink).
  vm_compute; lia.
Defined.

(** ** The configuration of the metadata writer *)




(** ** Strings *)







(** ** The end of the scan *)

(** C6: the scan of [Module] goes on until the position of the stream is the
    size of the file: a module that opened has its stream at the end of the
    file and its sections tile the file; a file whose frames do not end at
    its end, because a frame goes beyond it or stops short of a whole frame,
    does not open: [Module] raises. *)
Theorem scan_ends_at_eof_or_fails (file : bytes) :
  (forall module, Module_init file = Ok module ->
     pos module = length file /\ msize module = length file /\
     tiles file (sections module)) /\
  ((~ exists secs, tiles file secs) -> fails (Module_init file)).
Proof.
  split.
  - intros module H.
    apply Module_init_Ok_inv in H as (_ & _ & secs & m & Hfr & _ & ->). done.
  - intros Hno. destruct (Module_init file) as [module|e|] eqn:E.
    + apply Module_init_Ok_inv in E as (_ & _ & secs & m & Hfr & _ & _).
      destruct Hno. by exists secs.
    + by exists e.
    + by apply Module_init_no_timeout in E.
Qed.

Lemma scan_ends_at_eof_or_fails_witness :
  fails (Module_init examples.overshoot).
Proof.
  apply (scan_ends_at_eof_or_fails examples.overshoot).
  intros [secs H]. unfold tiles in H.
  inversion H as [|p ty sz n secs' q Hty Hdec Hfr]; subst.
  vm_compute in Hdec. injection Hdec as <- <-.
  inversion Hfr as [|p ty' sz' n' secs'' q' Hty' Hdec' Hfr']; subst.
  vm_compute in Hty'. discriminate.
Defined.

(** ** The sections of a type *)

Lemma index_sections_custom (secs : list section_info) (m : gmap N section_info) :
  Forall (fun s => sec_type s = SecType_value CUSTOM) secs ->
  index_sections secs m = Some m.
Proof.
  induction 1 as [|s secs Hs _ IH]; [done|].
  cbn [index_sections]. by rewrite Hs, N.eqb_refl.
Qed.

(** C7: a file with two sections of one type other than CUSTOM does not open;
    the index of a module that opened holds the sections of a type other than
    CUSTOM and no other, each under its type, and no two sections of the
    module share such a type; custom sections are not in the index, and a file
    that they tile opens however many they are. *)
Theorem non_custom_sections_unique :
  (forall file secs q i j s1 s2,
     frames file 8 secs q ->
     secs !! i = Some s1 -> secs !! j = Some s2 -> i <> j ->
     sec_type s1 = sec_type s2 -> sec_type s1 <> SecType_value CUSTOM ->
     fails (Module_init file)) /\
  (forall file module,
     Module_init file = Ok module ->
     (forall t s, section_map module !! t = Some s <->
                  s ∈ sections module /\ sec_type s = t /\
                  t <> SecType_value CUSTOM) /\
     (forall i j s1 s2,
        sections module !! i = Some s1 -> sections module !! j = Some s2 ->
        sec_type s1 = sec_type s2 -> sec_type s1 <> SecType_value CUSTOM ->
        i = j)) /\
  (forall file secs,
     take 4 file = wasm_magic -> take 4 (drop 4 file) = wasm_version ->
     tiles file secs ->
     Forall (fun s => sec_type s = SecType_value CUSTOM) secs ->
     Module_init file = Ok (Module_ (length file) file (length file) secs ∅)).
Proof.
  split; [|split].
  - intros file secs q i j s1 s2 Hfr Hi Hj Hne Ht Hc.
    pose proof (index_sections_duplicate secs ∅ _ _ _ _ Hi Hj Hne Ht Hc) as Hidx.
    destruct (decide (take 4 file = wasm_magic)) as [Hm|Hm].
    + destruct (decide (take 4 (drop 4 file) = wasm_version)) as [Hv|Hv].
      * rewrite (Module_init_duplicate _ _ _ Hm Hv Hfr Hidx). apply fails_Raise.
      * rewrite Module_init_eq, bool_decide_eq_true_2, bool_decide_eq_false_2 by done.
        apply fails_Raise.
    + rewrite Module_init_eq, bool_decide_eq_false_2 by done. apply fails_Raise.
  - intros file module H.
    apply Module_init_Ok_inv in H as (_ & _ & secs & m & _ & Hidx & ->).
    cbn [sections section_map]. split.
    + intros t s. rewrite (index_sections_lookup _ _ _ t s Hidx).
      rewrite lookup_empty. split; [by intros [?|?]|by right].
    + intros i j s1 s2. by apply index_sections_unique with (m0 := ∅) (m := m).
  - intros file secs Hm Hv Hfr Hc.
    apply Module_init_tiles; [done|done|done|]. by apply index_sections_custom.
Qed.

Lemma non_custom_sections_unique_witness :
  fails (Module_init examples.two_type) /\
  Module_init examples.two_custom =
    Ok (Module_ 14 examples.two_custom 14
          [Section_ 0 1 10; Section_ 0 1 13] ∅).
Proof.
  split.
  - apply (proj1 non_custom_sections_unique examples.two_type
             [Section_ 1 1 10; Section_ 1 1 13] 14%nat 0%nat 1%nat
             (Section_ 1 1 10) (Section_ 1 1 13));
      [|reflexivity|reflexivity|discriminate|reflexivity|discriminate].
    apply (frames_cons _ 8%nat x01 1 1%nat); [reflexivity|reflexivity|].
    apply (frames_cons _ 11%nat x01 1 1%nat); [reflexivity|reflexivity|].
    apply frames_nil.
  - apply (proj2 (proj2 non_custom_sections_unique) examples.two_custom
             [Section_ 0 1 10; Section_ 0 1 13]);
      [reflexivity|reflexivity| |repeat constructor].
    apply (frames_cons _ 8%nat x00 1 1%nat); [reflexivity|reflexivity|].
    apply (frames_cons _ 11%nat x00 1 1%nat); [reflexivity|reflexivity|].
    apply frames_nil.
Defined.

(** ** The end of the dylink section *)

(** C10: the end that [parse_dylink_section] returns is the offset of the
    first section plus its declared size and nothing else, and the reads of
    the payload are not checked against it: on [examples.dylink_overrun] the
    parse returns, with a name made of the two bytes of the header of the
    section that follows and the stream left beyond the end it returns. *)
Theorem dylink_parse_unbounded :
  (forall file mem_size mem_align table_size table_align section_end needed,
     parse_dylink_section file =
       Ok (mem_size, mem_align, table_size, table_align, section_end, needed) ->
     exists module s rest,
       Module_init file = Ok module /\ sections module = s :: rest /\
       section_end = (sec_offset s + N.to_nat (sec_size s))%nat) /\
  (exists module final,
     Module_init examples.dylink_overrun = Ok module /\
     parse_dylink_body module = Ok ((1, 1, 1, 1, 23%nat, [[0; 1]]), final) /\
     parse_dylink_section examples.dylink_overrun =
       Ok (1, 1, 1, 1, 23%nat, [[0; 1]]) /\
     take 2 (drop 23 examples.dylink_overrun) = bytes_of [0; 1] /\
     (23 < pos final)%nat).
Proof.
  split.
  - intros file ms ma ts ta send needed H. unfold parse_dylink_section in H.
    destruct (Module_init file) as [module| |] eqn:E; cbn in H; try done.
    destruct (parse_dylink_body module) as [[r final]| |] eqn:Eb; cbn in H; try done.
    injection H as ->.
    unfold parse_dylink_body in Eb.
    destruct (sections module) as [|s rest] eqn:Es; [done|].
    exists module, s, rest. split; [done|]. split; [done|].
    repeat (apply bind_Ok_inv in Eb as (? & ? & _ & Eb)).
    unfold ret in Eb. by injection Eb as _ _ _ _ <- _.
  - eexists _, _. split; [by vm_compute|]. split; [by vm_compute|].
    split; [by vm_compute|]. split; [by vm_compute|]. vm_compute. lia.
Qed.

(** ** Parsing the dylink section *)

Lemma lift_assert_inv (b : bool) self a self' :
  lift (assert b) self = Ok (a, self') -> b = true /\ self' = self.
Proof. destruct b; cbn; [|done]. intros H. by injection H as _ <-. Qed.

Lemma readString_Ok_inv self s self' :
  readString self = Ok (s, self') -> encodable s.
Proof.
  unfold readString. intros H.
  apply bind_Ok_inv in H as (size & s1 & _ & H).
  apply bind_Ok_inv in H as (bs & s2 & _ & H).
  unfold lift in H. destruct (utf8.decode bs) as [s0| |] eqn:E; try done.
  injection H as <- _. exists bs. by apply utf8_facts.encode_decode.
Qed.

Lemma read_needed_Ok_inv n : forall acc self l self',
  read_needed n acc self = Ok (l, self') ->
  exists new, l = acc ++ new /\ Forall encodable new.
Proof.
  induction n as [|n IH]; intros acc self l self' H; cbn [read_needed] in H.
  - injection H as <- _. exists []. by rewrite app_nil_r.
  - apply bind_Ok_inv in H as (libname & s1 & Hs & H).
    apply IH in H as (new & -> & Hnew). exists (libname :: new).
    rewrite <- app_assoc. split; [done|]. constructor; [|done].
    by eapply readString_Ok_inv.
Qed.

(** What a parse that returned has gone through. *)
Lemma parse_dylink_section_inv file mem_size mem_align table_size table_align
    section_end needed :
  parse_dylink_section file =
    Ok (mem_size, mem_align, table_size, table_align, section_end, needed) ->
  exists module s rest,
    Module_init file = Ok module /\ sections module = s :: rest /\
    sec_type s = SecType_value CUSTOM /\
    section_end = (sec_offset s + N.to_nat (sec_size s))%nat /\
    Forall encodable needed.
Proof.
  intros H. unfold parse_dylink_section in H.
  destruct (Module_init file) as [module| |] eqn:E; cbn in H; try done.
  destruct (parse_dylink_body module) as [[r final]| |] eqn:Eb; cbn in H; try done.
  injection H as ->. unfold parse_dylink_body in Eb.
  destruct (sections module) as [|s rest] eqn:Es; [done|].
  exists module, s, rest. split; [done|]. split; [done|].
  apply bind_Ok_inv in Eb as (? & ? & Ha & Eb).
  apply lift_assert_inv in Ha as [Ht _]. apply N.eqb_eq in Ht.
  do 8 (apply bind_Ok_inv in Eb as (? & ? & _ & Eb)).
  apply bind_Ok_inv in Eb as (l & ? & Hn & Eb).
  unfold ret in Eb. injection Eb as _ _ _ _ <- <- _.
  apply read_needed_Ok_inv in Hn as (new & -> & Hnew). done.
Qed.

(** ** Writing the dylink section *)


Lemma encode_needed_encodes (names : list str) (encs : list bytes) :
  Forall2 encodes names encs ->
  forall contents,
    encode_needed names contents =
      Ok (contents ++ concat (length_prefixed <$> encs)).
Proof.
  induction 1 as [|name e names encs He _ IH]; intros contents.
  - cbn. by rewrite app_nil_r.
  - cbn [encode_needed]. unfold encodes in He. rewrite He. cbn [rbind].
    rewrite IH. cbn [fmap list_fmap concat]. unfold length_prefixed at 2.
    by rewrite <- !app_assoc.
Qed.

Lemma read_needed_encodes (names : list str) (encs : list bytes) :
  Forall2 encodes names encs ->
  forall acc rest self,
    drop (pos self) (buf self) = concat (length_prefixed <$> encs) ++ rest ->
    read_needed (length names) acc self =
      Ok (acc ++ names,
          set_pos self (pos self + length (concat (length_prefixed <$> encs)))).
Proof.
  induction 1 as [|name e names encs He _ IH]; intros acc rest self H.
  - cbn. unfold ret. rewrite app_nil_r, Nat.add_0_r. by destruct self.
  - cbn [length read_needed]. cbn [fmap list_fmap concat] in *.
    unfold length_prefixed at 1 in H. rewrite <- !app_assoc in H.
    erewrite bind_Ok; [|eapply readString_encode; [exact He|exact H]].
    do 2 apply drop_app_rest in H.
    erewrite IH; [|cbn [pos buf set_pos]; exact H].
    cbn [pos set_pos]. rewrite set_pos_set_pos, <- app_assoc.
    do 3 f_equal. rewrite length_app, length_prefixed_length. lia.
Qed.

Lemma dylink_name_encode :
  utf8.encode (str_of "dylink") = Ok (String.list_byte_of_string "dylink").
Proof. reflexivity. Qed.

(** The parse of a module whose first section is a dylink section as
    [dylink_body] lays it out, whatever follows the body. *)
Lemma parse_dylink_body_written module sz off secs
    mem_size mem_align table_size table_align names encs rest :
  sections module = Section_ (SecType_value CUSTOM) sz off :: secs ->
  Forall2 encodes names encs ->
  drop off (buf module) =
    dylink_body mem_size mem_align table_size table_align encs ++ rest ->
  exists final,
    parse_dylink_body module =
      Ok ((mem_size, mem_align, table_size, table_align,
           (off + N.to_nat sz)%nat, names), final).
Proof.
  intros Hs Hn H. unfold parse_dylink_body. rewrite Hs.
  cbn [sec_type sec_size sec_offset]. rewrite N.eqb_refl.
  unfold bind at 1. cbn [lift assert].
  unfold bind at 1, seek at 1.
  unfold dylink_body, varints in H. unfold length_prefixed at 1 in H.
  cbn [fmap list_fmap concat] in H. rewrite <- !app_assoc in H. cbn [app] in H.
  rewrite <- (Forall2_length _ _ _ Hn) in H.
  set (self := set_pos module off).
  change (drop off (buf module)) with (drop (pos self) (buf self)) in H.
  erewrite bind_Ok; [|eapply readString_encode; [exact dylink_name_encode|exact H]].
  do 2 apply drop_app_rest in H.
  rewrite bool_decide_eq_true_2 by done.
  unfold bind at 1. cbn [lift assert].
  repeat (erewrite bind_Ok;
          [|eapply readULEB_encode; cbn [pos buf set_pos]; exact H];
          apply drop_app_rest in H; cbn [pos set_pos]; rewrite set_pos_set_pos).
  rewrite Nat2N.id.
  erewrite bind_Ok; [|eapply (read_needed_encodes _ _ Hn []); cbn [pos buf set_pos]; exact H].
  unfold ret. by eexists.
Qed.

(** What [update_dylink_section] writes. *)
Lemma update_dylink_section_eq orig extra_dynlibs
    mem_size mem_align table_size table_align section_end needed encs :
  parse_dylink_section orig =
    Ok (mem_size, mem_align, table_size, table_align, section_end, needed) ->
  Forall2 encodes (needed ++ extra_dynlibs) encs ->
  update_dylink_section orig extra_dynlibs =
    Ok (take 8 orig
          ++ custom_section (dylink_body mem_size mem_align table_size 0 encs)
          ++ drop section_end orig).
Proof.
  intros Hp He. unfold update_dylink_section. rewrite Hp. cbn [rbind].
  rewrite (encode_needed_encodes _ _ He). cbn [rbind].
  unfold custom_section, dylink_body, varints, length_prefixed.
  rewrite <- (Forall2_length _ _ _ He).
  cbn [fmap list_fmap concat]. rewrite app_nil_r.
  change (toLEB (N.of_nat (length (String.list_byte_of_string "dylink")))
            ++ String.list_byte_of_string "dylink")
    with (x06 :: String.list_byte_of_string "dylink").
  rewrite <- length_app, <- !app_assoc. done.
Qed.

Lemma encode_needed_Ok_inv (names : list str) : forall contents out,
  encode_needed names contents = Ok out ->
  exists encs, Forall2 encodes names encs.
Proof.
  induction names as [|name names IH]; intros contents out H.
  - by exists [].
  - cbn [encode_needed] in H.
    destruct (utf8.encode name) as [e| |] eqn:E; cbn in H; try done.
    apply IH in H as [encs H]. exists (e :: encs). by constructor.
Qed.

(** ** A custom section put after the header *)

(** The file made of the header of [orig], a custom section with the given
    body, and the bytes of [orig] from a position [k] where frames start that
    go to the end of [orig]: it opens, with the custom section first and then
    the sections of these frames, moved. *)
Lemma Module_init_splice (orig : bytes) (k : nat) (secs : list section_info)
    (m : gmap N section_info) (body : bytes) :
  take 4 orig = wasm_magic -> take 4 (drop 4 orig) = wasm_version ->
  frames orig k secs (length orig) ->
  index_sections secs ∅ = Some m ->
  let out := take 8 orig ++ custom_section body ++ drop k orig in
  let d := (8 + length (custom_section body))%nat in
  exists (rsecs : list section_info) (m0 : gmap N section_info),
    secs = shift_section k <$> rsecs /\ m = shift_section k <$> m0 /\
    (length out + k = length orig + d)%nat /\
    Module_init out =
      Ok (Module_ (length out) out (length out)
            (Section_ (SecType_value CUSTOM) (N.of_nat (length body))
               (9 + length (toLEB (N.of_nat (length body))))
             :: (shift_section d <$> rsecs))
            (shift_section d <$> m0)).
Proof.
  intros Hm Hv Hfr Hidx out d.
  pose proof (frames_le _ _ _ _ Hfr) as Hk.
  destruct (header_length _ Hm Hv) as [H8 Hhdr].
  assert (Hlk : length (take k orig) = k) by (rewrite length_take; lia).
  assert (Hl8 : length (take 8 orig) = 8%nat) by (rewrite length_take; lia).
  rewrite <- (take_drop k orig) in Hfr at 1.
  destruct (frames_app_inv _ _ _ _ _ Hfr 0%nat ltac:(lia))
    as (rsecs & r & Hsecs & Hr & Hfr0).
  rewrite Hlk in Hsecs, Hr.
  pose proof (index_sections_shift k rsecs ∅) as Hik.
  rewrite fmap_empty, <- Hsecs, Hidx in Hik.
  destruct (index_sections rsecs ∅) as [m0|] eqn:Hidx0; [|done].
  injection Hik as ->.
  exists rsecs, m0. split; [done|]. split; [done|].
  assert (Hlen : length out = (d + r)%nat).
  { unfold out, d. rewrite !length_app, length_drop, Hl8. lia. }
  split; [lia|].
  apply Module_init_tiles.
  - unfold out. rewrite take_app_le by lia. by rewrite Hhdr.
  - unfold out. rewrite drop_app_le by lia.
    rewrite take_app_le by (rewrite length_drop; lia). by rewrite Hhdr.
  - unfold tiles.
    apply (frames_cons out 8 x00 (N.of_nat (length body))
             (length (toLEB (N.of_nat (length body))))).
    + unfold out. rewrite lookup_app_r by lia. by rewrite Hl8.
    + unfold out. rewrite drop_app_ge by lia. rewrite Hl8.
      unfold custom_section. cbn [app drop Nat.sub]. rewrite drop_0.
      rewrite <- app_assoc. apply leb128_facts.u_decode_encode.
    + rewrite Nat2N.id.
      replace out with ((take 8 orig ++ custom_section body) ++ drop k orig)
        by (unfold out; by rewrite <- app_assoc).
      pose proof (frames_app (take 8 orig ++ custom_section body) _ _ _ _ Hfr0) as Hf.
      rewrite length_app, Hl8 in Hf. fold d in Hf.
      replace (S 8 + length (toLEB (N.of_nat (length body))) + length body)%nat
        with (d + 0)%nat by (unfold d, custom_section; rewrite !length_app; cbn; lia).
      rewrite length_app, length_app, Hl8, length_drop. fold d.
      by replace (d + (length orig - k))%nat with (d + r)%nat by lia.
  - cbn [index_sections sec_type]. rewrite N.eqb_refl.
    pose proof (index_sections_shift d rsecs ∅) as Hid.
    rewrite fmap_empty, Hidx0 in Hid. exact Hid.
Qed.

Lemma moved_shift (orig out : bytes) (k d : nat) (rsecs : list section_info) :
  (length out + k = length orig + d)%nat ->
  Forall2 (moved orig out) (shift_section k <$> rsecs) (shift_section d <$> rsecs).
Proof.
  intros H. induction rsecs as [|s rsecs IH]; [constructor|].
  cbn [fmap list_fmap]. constructor; [|exact IH].
  unfold moved, shift_section. cbn. split; [done|]. split; [done|]. lia.
Qed.

Lemma drop_custom_section (hdr body rest : bytes) :
  length hdr = 8%nat ->
  drop (9 + length (toLEB (N.of_nat (length body))))
    (hdr ++ custom_section body ++ rest) = body ++ rest.
Proof.
  intros H. unfold custom_section. rewrite <- !app_assoc.
  replace (9 + length (toLEB (N.of_nat (length body))))%nat
    with (length hdr + length [x00] + length (toLEB (N.of_nat (length body))))%nat
    by (rewrite H; cbn; lia).
  apply drop_app_rest, drop_app_rest. rewrite <- (Nat.add_0_l (length hdr)).
  apply drop_app_rest. by rewrite drop_0.
Qed.

Lemma add_emscripten_metadata_eq (settings : Settings) (orig : bytes) :
  add_emscripten_metadata settings orig =
    take 8 orig
      ++ custom_section (metadata_name ++ metadata_contents settings)
      ++ drop 8 orig.
Proof.
  unfold add_emscripten_metadata, custom_section.
  by rewrite <- length_app, <- !app_assoc.
Qed.

(** What the update of a file whose dylink section parses gives. *)
Lemma update_dylink_section_spec orig extra_dynlibs
    mem_size mem_align table_size table_align section_end needed encs :
  parse_dylink_section orig =
    Ok (mem_size, mem_align, table_size, table_align, section_end, needed) ->
  Forall2 encodes (needed ++ extra_dynlibs) encs ->
  let body := dylink_body mem_size mem_align table_size 0 encs in
  let out := take 8 orig ++ custom_section body ++ drop section_end orig in
  update_dylink_section orig extra_dynlibs = Ok out /\
  (section_end <= length orig)%nat /\
  exists module module' new secs',
    Module_init orig = Ok module /\ Module_init out = Ok module' /\
    buf module' = out /\
    sections module' = new :: secs' /\
    new = Section_ (SecType_value CUSTOM) (N.of_nat (length body))
            (9 + length (toLEB (N.of_nat (length body)))) /\
    Forall2 (moved orig out) (tail (sections module)) secs' /\
    parse_dylink_section out =
      Ok (mem_size, mem_align, table_size, 0,
          (sec_offset new + N.to_nat (sec_size new))%nat,
          needed ++ extra_dynlibs).
Proof.
  intros Hp He body out.
  split; [by eapply update_dylink_section_eq|].
  destruct (parse_dylink_section_inv _ _ _ _ _ _ _ Hp)
    as (module & s & rest & Hmod & Hsecs & Hty & Hend & _).
  destruct (Module_init_Ok_inv _ _ Hmod)
    as (Hm & Hv & secs & m & Htiles & Hidx & ->).
  cbn [sections] in Hsecs. subst secs.
  destruct (frames_tail _ _ _ _ _ Htiles) as (Hfr & _ & _).
  rewrite <- Hend in Hfr.
  cbn [index_sections] in Hidx. rewrite Hty, N.eqb_refl in Hidx.
  destruct (Module_init_splice orig section_end rest m body Hm Hv Hfr Hidx)
    as (rsecs & m0 & Hrest & _ & Hlen & Hout).
  fold out in Hlen, Hout.
  split; [by apply frames_le in Hfr|].
  eexists _, _, _, _. split; [exact Hmod|]. split; [exact Hout|].
  split; [done|]. split; [done|]. split; [done|].
  split; [cbn [sections tail]; rewrite Hrest; by apply moved_shift|].
  unfold parse_dylink_section. rewrite Hout. cbn [rbind].
  destruct (header_length _ Hm Hv) as [H8 _].
  edestruct (parse_dylink_body_written
               (Module_ (length out) out (length out)
                  (Section_ (SecType_value CUSTOM) (N.of_nat (length body))
                     (9 + length (toLEB (N.of_nat (length body))))
                   :: (shift_section (8 + length (custom_section body)) <$> rsecs))
                  (shift_section (8 + length (custom_section body)) <$> m0))
               _ _ _ mem_size mem_align table_size 0 _ _ (drop section_end orig)
               eq_refl He) as [final Hfinal].
  - cbn [buf]. unfold out. apply drop_custom_section. rewrite length_take. lia.
  - rewrite Hfinal. done.
Qed.

(** ** The dylink round trip *)



(** ** The bytes that the rewrites keep *)

Lemma drop_suffix (a l : bytes) :
  drop (length (a ++ l) - length l) (a ++ l) = l.
Proof.
  rewrite length_app.
  replace (length a + length l - length l)%nat with (length a) by lia.
  apply drop_app_length.
Qed.

(** C8: the file that [update_dylink_section] writes ends with the bytes of
    the original file from the end of its dylink section, which is the end
    that the parse returns, to its end; the file that
    [add_emscripten_metadata] writes ends with the bytes of the original file
    from offset 8 to its end. *)
Theorem rewrites_preserve_suffix :
  (forall orig extra_dynlibs out mem_size mem_align table_size table_align
          section_end needed,
     parse_dylink_section orig =
       Ok (mem_size, mem_align, table_size, table_align, section_end, needed) ->
     update_dylink_section orig extra_dynlibs = Ok out ->
     (section_end <= length orig)%nat /\
     (length orig - section_end <= length out)%nat /\
     drop (length out - (length orig - section_end)) out = drop section_end orig) /\
  (forall settings orig,
     let out := add_emscripten_metadata settings orig in
     (length orig - 8 <= length out)%nat /\
     drop (length out - (length orig - 8)) out = drop 8 orig).
Proof.
  split.
  - intros orig extra out ms ma ts ta send needed Hp Hup.
    assert (Henc : exists encs, Forall2 encodes (needed ++ extra) encs).
    { unfold update_dylink_section in Hup. rewrite Hp in Hup. cbn [rbind] in Hup.
      destruct (encode_needed _ _) as [c| |] eqn:E; cbn in Hup; try done.
      by apply encode_needed_Ok_inv in E. }
    destruct Henc as [encs He].
    destruct (update_dylink_section_spec _ _ _ _ _ _ _ _ _ Hp He)
      as (Hup' & Hle & _).
    assert (Hout : out = take 8 orig
                           ++ custom_section (dylink_body ms ma ts 0 encs)
                           ++ drop send orig) by congruence.
    split; [done|]. rewrite <- (length_drop orig send), Hout.
    rewrite (app_assoc (take 8 orig)).
    split; [rewrite length_app; lia|]. apply drop_suffix.
  - intros settings orig out. unfold out. rewrite add_emscripten_metadata_eq.
    rewrite <- (length_drop orig 8). rewrite (app_assoc (take 8 orig)).
    split; [rewrite length_app; lia|]. apply drop_suffix.
Qed.

Lemma rewrites_preserve_suffix_witness :
  exists out,
    update_dylink_section examples.dylink [str_of "b"] = Ok out /\
    drop (length out - (length examples.dylink - 24)) out =
      drop 24 examples.dylink.
Proof.
  eexists. split; [vm_compute; reflexivity|].
  eapply (proj1 rewrites_preserve_suffix examples.dylink [str_of "b"]);
    vm_compute; reflexivity.
Defined.

(** ** The module after a rewrite *)

(** C9: the file that [add_emscripten_metadata] writes from a file that opens
    opens as well, and so does the file that [update_dylink_section] writes
    from a file whose dylink section parses; the first section of the module
    is then the custom section that was written, whose declared size is the
    length of its name and payload, which are the bytes at its offset, and
    the sections that follow are the sections of the original file, all of
    them after the metadata section and all but the first after the dylink
    section, with their offsets moved by the difference of the lengths of the
    two files. *)
Theorem rewrites_preserve_well_formedness :
  (forall settings orig module,
     Module_init orig = Ok module ->
     let out := add_emscripten_metadata settings orig in
     let body := metadata_name ++ metadata_contents settings in
     exists module' new secs',
       Module_init out = Ok module' /\
       sections module' = new :: secs' /\
       sec_type new = SecType_value CUSTOM /\
       sec_size new = N.of_nat (length body) /\
       take (length body) (drop (sec_offset new) out) = body /\
       Forall2 (moved orig out) (sections module) secs') /\
  (forall orig extra_dynlibs out mem_size mem_align table_size table_align
          section_end needed,
     parse_dylink_section orig =
       Ok (mem_size, mem_align, table_size, table_align, section_end, needed) ->
     update_dylink_section orig extra_dynlibs = Ok out ->
     exists module module' new secs' encs,
       Module_init orig = Ok module /\
       Module_init out = Ok module' /\
       sections module' = new :: secs' /\
       sec_type new = SecType_value CUSTOM /\
       Forall2 encodes (needed ++ extra_dynlibs) encs /\
       sec_size new =
         N.of_nat (length (dylink_body mem_size mem_align table_size 0 encs)) /\
       take (length (dylink_body mem_size mem_align table_size 0 encs))
         (drop (sec_offset new) out) =
         dylink_body mem_size mem_align table_size 0 encs /\
       Forall2 (moved orig out) (tail (sections module)) secs').
Proof.
  split.
  - intros settings orig module Hmod out body.
    destruct (Module_init_Ok_inv _ _ Hmod)
      as (Hm & Hv & secs & m & Htiles & Hidx & ->).
    destruct (Module_init_splice orig 8 secs m body Hm Hv Htiles Hidx)
      as (rsecs & m0 & Hsecs & _ & Hlen & Hout).
    unfold out. rewrite add_emscripten_metadata_eq. fold body.
    eexists _, _, _. split; [exact Hout|]. split; [done|].
    split; [done|]. split; [done|].
    destruct (header_length _ Hm Hv) as [H8 _].
    split.
    + cbn [sec_offset]. rewrite drop_custom_section by (rewrite length_take; lia).
      apply take_app_length.
    + cbn [sections]. rewrite Hsecs. by apply moved_shift.
  - intros orig extra out ms ma ts ta send needed Hp Hup.
    assert (Henc : exists encs, Forall2 encodes (needed ++ extra) encs).
    { unfold update_dylink_section in Hup. rewrite Hp in Hup. cbn [rbind] in Hup.
      destruct (encode_needed _ _) as [c| |] eqn:E; cbn in Hup; try done.
      by apply encode_needed_Ok_inv in E. }
    destruct Henc as [encs He].
    destruct (update_dylink_section_spec _ _ _ _ _ _ _ _ _ Hp He)
      as (Hup' & Hle & module & module' & new & secs' & Hmod & Hmod' & Hbuf
          & Hsecs & Hnew & Hmoved & _).
    assert (Hout : out = take 8 orig
                           ++ custom_section (dylink_body ms ma ts 0 encs)
                           ++ drop send orig) by congruence.
    rewrite <- Hout in *.
    exists module, module', new, secs', encs.
    split; [done|]. split; [done|]. split; [done|].
    split; [by rewrite Hnew|]. split; [done|]. split; [by rewrite Hnew|].
    split; [|done].
    destruct (parse_dylink_section_inv _ _ _ _ _ _ _ Hp)
      as (module0 & _ & _ & Hmod0 & _).
    destruct (Module_init_Ok_inv _ _ Hmod0) as (Hm & Hv & _).
    destruct (header_length _ Hm Hv) as [H8 _].
    rewrite Hnew, Hout. cbn [sec_offset].
    rewrite drop_custom_section by (rewrite length_take; lia).
    apply take_app_length.
Qed.

Lemma rewrites_preserve_well_formedness_witness :
  exists module' new secs',
    Module_init (add_emscripten_metadata examples.settings examples.dylink) =
      Ok module' /\
    sections module' = new :: secs' /\
    sec_type new = SecType_value CUSTOM /\
    sec_size new =
      N.of_nat (length (metadata_name ++ metadata_contents examples.settings)).
Proof.
  destruct (proj1 rewrites_preserve_well_formedness examples.settings
              examples.dylink
              (Module_ 27 examples.dylink 27
                 [Section_ 0 14 10; Section_ 1 1 26]
                 {[ 1 := Section_ 1 1 26 ]}))
    as (module' & new & secs' & H1 & H2 & H3 & H4 & _).
  - vm_compute. reflexivity.
  - by exists module', new, secs'.
Defined.

(** ** Reading the imports *)






Lemma set_pos_eq self (a b : nat) : a = b -> set_pos self a = set_pos self b.
Proof. by intros ->. Qed.













(** * Further properties of the reader and of the writers *)

(** ** Opening a file *)

Lemma header_take (file : bytes) :
  take 8 file = wasm_magic ++ wasm_version <->
  take 4 file = wasm_magic /\ take 4 (drop 4 file) = wasm_version.
Proof.
  split.
  - intros H.
    assert (E4 : take 4 file = take 4 (take 8 file)).
    { rewrite take_take. by replace (4 `min` 8)%nat with 4%nat by lia. }
    assert (E8 : take 4 (drop 4 file) = drop 4 (take 8 file)).
    { exact (take_drop_commute file 4 4). }
    rewrite E4, E8, H. done.
  - intros [Hm Hv]. by apply header_length.
Qed.

(** X1: [Module(filename)] on a file that does not start with the magic number
    and the version, a file of fewer than eight bytes among them, raises at
    one of the two [assert]s, before any section is read. *)
Theorem Module_init_bad_header (file : bytes) :
  take 8 file <> wasm_magic ++ wasm_version ->
  Module_init file = Raise AssertionError.
Proof.
  intros H. rewrite Module_init_eq.
  case_bool_decide as Hm; [|done]. case_bool_decide as Hv; [|done].
  destruct H. by apply header_take.
Qed.

Lemma Module_init_bad_header_witness :
  Module_init [] = Raise AssertionError /\
  Module_init (wasm_magic ++ bytes_of [1; 0; 0]) = Raise AssertionError /\
  Module_init (wasm_magic ++ bytes_of [2; 0; 0; 0]) = Raise AssertionError.
Proof.
  split; [|split]; apply Module_init_bad_header; vm_compute; discriminate.
Defined.

(** X2: [Module(filename)] returns exactly on the files that start with the magic
    number and the version and whose section frames tile the rest with no
    type other than CUSTOM twice; the object then has the size of the file,
    the stream at the end, the sections in the order of the file and their
    index by type. No type code and no payload makes it raise. *)
Theorem Module_init_iff (file : bytes) (module : wasm_module) :
  Module_init file = Ok module <->
  take 8 file = wasm_magic ++ wasm_version /\
  exists secs m,
    tiles file secs /\ index_sections secs ∅ = Some m /\
    module = Module_ (length file) file (length file) secs m.
Proof.
  split.
  - intros H. apply Module_init_Ok_inv in H as (Hm & Hv & H).
    split; [by apply header_take|done].
  - intros (Hh & secs & m & Ht & Hi & ->).
    apply header_take in Hh as [Hm Hv]. by apply Module_init_tiles.
Qed.

(** ** The sections of a module *)

Lemma frames_bounds file p secs q :
  frames file p secs q ->
  Forall (fun s => (p + 2 <= sec_offset s /\
                    sec_offset s + N.to_nat (sec_size s) <= q)%nat) secs.
Proof.
  induction 1 as [p|p ty sz n secs q Hty Hdec Hfr IH]; constructor.
  - cbn. apply u_decode_length in Hdec. apply frames_le in Hfr. lia.
  - apply u_decode_length in Hdec.
    eapply Forall_impl; [exact IH|]. cbn. intros s. lia.
Qed.

Lemma frames_next file p secs q i s1 s2 :
  frames file p secs q ->
  secs !! i = Some s1 -> secs !! S i = Some s2 ->
  (sec_offset s1 + N.to_nat (sec_size s1) + 2 <= sec_offset s2)%nat.
Proof.
  intros H. revert i. induction H as [p|p ty sz n secs q Hty Hdec Hfr IH];
    intros i H1 H2; [done|].
  destruct i as [|i].
  - injection H1 as <-. cbn in H2. cbn [sec_offset sec_size].
    apply frames_bounds in Hfr.
    destruct secs as [|s secs]; [done|]. injection H2 as ->.
    apply Forall_cons in Hfr as [Hs _]. lia.
  - cbn in H1, H2. by eapply IH.
Qed.

(** X3: the sections of a module that opened lie in the file, after the header,
    in the order of their offsets: the payload of each one is within the
    file, and the next one starts at least two bytes, its type and its size,
    after the end of that payload. *)
Theorem sections_in_file_order (file : bytes) (module : wasm_module) :
  Module_init file = Ok module ->
  Forall (fun s => (10 <= sec_offset s /\
                    sec_offset s + N.to_nat (sec_size s) <= length file)%nat)
    (sections module) /\
  (forall i s1 s2,
     sections module !! i = Some s1 -> sections module !! S i = Some s2 ->
     (sec_offset s1 + N.to_nat (sec_size s1) + 2 <= sec_offset s2)%nat).
Proof.
  intros H. apply Module_init_Ok_inv in H as (_ & _ & secs & m & Ht & _ & ->).
  cbn [sections]. split.
  - apply frames_bounds in Ht. eapply Forall_impl; [exact Ht|].
    cbn. intros s. lia.
  - intros i s1 s2. exact (frames_next _ _ _ _ i s1 s2 Ht).
Qed.

Lemma sections_in_file_order_witness :
  Forall (fun s => (10 <= sec_offset s /\
                    sec_offset s + N.to_nat (sec_size s)
                      <= length examples.dylink)%nat)
    [Section_ 0 14 10; Section_ 1 1 26].
Proof.
  apply (sections_in_file_order examples.dylink
           (Module_ 27 examples.dylink 27
              [Section_ 0 14 10; Section_ 1 1 26]
              {[ 1 := Section_ 1 1 26 ]})).
  vm_compute. reflexivity.
Defined.

(** ** The errors of parse_dylink_section *)

Lemma frames_nil_inv file p q : frames file p [] q -> q = p.
Proof. by inversion 1. Qed.

Lemma frames_cons_lt file p s secs q : frames file p (s :: secs) q -> (p < q)%nat.
Proof.
  intros H. apply frames_tail in H as (H & Hp & _). apply frames_le in H. lia.
Qed.

(** X4: on a module that opened, [parse_dylink_section] raises [IndexError] at
    [module.sections[0]] when the file has no section, which is when it is
    the eight bytes of the header alone; it raises [AssertionError] when the
    first section is not a custom section, and when it is one whose name
    reads as another string than "dylink". *)
Theorem parse_dylink_section_errors (file : bytes) (module : wasm_module) :
  Module_init file = Ok module ->
  (sections module = [] <-> length file = 8%nat) /\
  (sections module = [] -> parse_dylink_section file = Raise IndexError) /\
  (forall s rest,
     sections module = s :: rest -> sec_type s <> SecType_value CUSTOM ->
     parse_dylink_section file = Raise AssertionError) /\
  (forall s rest name self',
     sections module = s :: rest -> sec_type s = SecType_value CUSTOM ->
     readString (set_pos module (sec_offset s)) = Ok (name, self') ->
     name <> str_of "dylink" ->
     parse_dylink_section file = Raise AssertionError).
Proof.
  intros Hmod. unfold parse_dylink_section. rewrite Hmod. cbn [rbind].
  unfold parse_dylink_body. split; [|split; [|split]].
  - apply Module_init_Ok_inv in Hmod as (_ & _ & secs & m & Ht & _ & ->).
    cbn [sections]. split.
    + intros ->. by apply frames_nil_inv in Ht.
    + intros H8. destruct secs as [|s secs]; [done|].
      apply frames_cons_lt in Ht. lia.
  - by intros ->.
  - intros s rest -> Hne. apply N.eqb_neq in Hne. by rewrite Hne.
  - intros s rest name self' -> Hty Hname Hne. rewrite Hty, N.eqb_refl.
    unfold bind at 1. cbn [lift assert]. unfold bind at 1, seek at 1.
    rewrite (bind_Ok _ _ _ _ _ Hname).
    by rewrite bool_decide_eq_false_2.
Qed.

Lemma parse_dylink_section_errors_witness :
  parse_dylink_section examples.header = Raise IndexError /\
  parse_dylink_section examples.imports = Raise AssertionError.
Proof.
  split.
  - apply (parse_dylink_section_errors examples.header
             (Module_ 8 examples.header 8 [] ∅)); reflexivity.
  - destruct (parse_dylink_section_errors examples.imports
                (Module_ 42 examples.imports 42 [Section_ 2 32 10]
                   {[ 2 := Section_ 2 32 10 ]})) as (_ & _ & H & _).
    + vm_compute. reflexivity.
    + apply (H (Section_ 2 32 10) []); [reflexivity|discriminate].
Defined.

(** ** A dylink section put after the header *)

(** X5: the file made of the header of a module that opens, a custom section
    with a dylink body, and the sections of the module: its parse returns the
    four numbers and the names of the body, whatever the alignment of the
    table, and the end of the new section. *)
Theorem parse_dylink_section_written (orig : bytes) (module : wasm_module)
    (mem_size mem_align table_size table_align : N)
    (names : list str) (encs : list bytes) :
  Module_init orig = Ok module ->
  Forall2 encodes names encs ->
  let body := dylink_body mem_size mem_align table_size table_align encs in
  parse_dylink_section (take 8 orig ++ custom_section body ++ drop 8 orig) =
    Ok (mem_size, mem_align, table_size, table_align,
        (8 + length (custom_section body))%nat, names).
Proof.
  intros Hmod Hn body.
  destruct (Module_init_Ok_inv _ _ Hmod)
    as (Hm & Hv & secs & m & Htiles & Hidx & ->).
  destruct (Module_init_splice orig 8 secs m body Hm Hv Htiles Hidx)
    as (rsecs & m0 & _ & _ & _ & Hout).
  unfold parse_dylink_section. rewrite Hout. cbn [rbind].
  destruct (header_length _ Hm Hv) as [H8 _].
  edestruct (parse_dylink_body_written
               (Module_ (length (take 8 orig ++ custom_section body ++ drop 8 orig))
                  (take 8 orig ++ custom_section body ++ drop 8 orig)
                  (length (take 8 orig ++ custom_section body ++ drop 8 orig))
                  (Section_ (SecType_value CUSTOM) (N.of_nat (length body))
                     (9 + length (toLEB (N.of_nat (length body))))
                   :: (shift_section (8 + length (custom_section body)) <$> rsecs))
                  (shift_section (8 + length (custom_section body)) <$> m0))
               _ _ _ mem_size mem_align table_size table_align _ _ (drop 8 orig)
               eq_refl Hn) as [final Hfinal].
  - cbn [buf]. apply drop_custom_section. rewrite length_take. lia.
  - rewrite Hfinal. cbn [rbind fst]. do 3 f_equal.
    unfold custom_section. rewrite !length_app, Nat2N.id. cbn [length]. lia.
Qed.

Lemma parse_dylink_section_written_witness :
  parse_dylink_section
    (take 8 examples.imports
       ++ custom_section (dylink_body 16 4 8 4 [bytes_of [97]])
       ++ drop 8 examples.imports) =
    Ok (16, 4, 8, 4, 24%nat, [str_of "a"]).
Proof.
  eapply (parse_dylink_section_written examples.imports _ 16 4 8 4).
  - vm_compute. reflexivity.
  - repeat constructor.
Defined.

(** ** The metadata section and the dylink section *)

(** X6: after [add_emscripten_metadata] the first section of the file is the
    metadata section, and [parse_dylink_section], which looks for the dylink
    section in the first section alone, raises at the [assert] on the name,
    even when the original file had a dylink section; so does
    [update_dylink_section]. *)
Theorem metadata_hides_dylink (settings : Settings) (orig : bytes)
    (module : wasm_module) (extra_dynlibs : list str) :
  Module_init orig = Ok module ->
  parse_dylink_section (add_emscripten_metadata settings orig) =
    Raise AssertionError /\
  update_dylink_section (add_emscripten_metadata settings orig) extra_dynlibs =
    Raise AssertionError.
Proof.
  intros Hmod.
  assert (Hp : parse_dylink_section (add_emscripten_metadata settings orig) =
               Raise AssertionError).
  { destruct (Module_init_Ok_inv _ _ Hmod)
      as (Hm & Hv & secs & m & Htiles & Hidx & ->).
    set (body := metadata_name ++ metadata_contents settings).
    destruct (Module_init_splice orig 8 secs m body Hm Hv Htiles Hidx)
      as (rsecs & m0 & _ & _ & _ & Hout).
    rewrite add_emscripten_metadata_eq. fold body.
    unfold parse_dylink_section. rewrite Hout. cbn [rbind].
    unfold parse_dylink_body. cbn [sections sec_type sec_size sec_offset].
    rewrite N.eqb_refl. unfold bind at 1. cbn [lift assert].
    unfold bind at 1, seek at 1.
    destruct (header_length _ Hm Hv) as [H8 _].
    erewrite bind_Ok.
    2:{ eapply (readString_encode _ _ (metadata_contents settings ++ drop 8 orig)
                  _ metadata_name_encode).
        cbn [pos buf set_pos].
        rewrite drop_custom_section by (rewrite length_take; lia).
        unfold body. rewrite metadata_name_eq. unfold length_prefixed.
        by rewrite <- !app_assoc. }
    rewrite bool_decide_eq_false_2 by discriminate. done. }
  split; [done|]. unfold update_dylink_section. by rewrite Hp.
Qed.

Lemma metadata_hides_dylink_witness :
  parse_dylink_section examples.dylink = Ok (16, 4, 8, 4, 24%nat, [str_of "a"]) /\
  parse_dylink_section (add_emscripten_metadata examples.settings examples.dylink) =
    Raise AssertionError.
Proof.
  split; [vm_compute; reflexivity|].
  eapply (metadata_hides_dylink examples.settings examples.dylink _ []).
  vm_compute. reflexivity.
Defined.

(** ** Updating the dylink section again *)

(** X7: two updates in a row write what one update with the names of both,
    in their order, writes: the same bytes when the second returns, the same
    exception when it raises; and a file that [update_dylink_section] wrote
    is left as it is by an update with no name to add. *)
Theorem update_dylink_section_compose (orig out : bytes) (a b : list str) :
  update_dylink_section orig a = Ok out ->
  update_dylink_section out b = update_dylink_section orig (a ++ b) /\
  update_dylink_section out [] = Ok out.
Proof.
  intros Hup.
  assert (Hagain : forall c,
            update_dylink_section out c = update_dylink_section orig (a ++ c)).
  { intros c.
    destruct (parse_dylink_section orig)
      as [[[[[[ms ma] ts] ta] send] needed]| |] eqn:Hp;
      [|unfold update_dylink_section in Hup; by rewrite Hp in Hup..].
    assert (Henc : exists encs, Forall2 encodes (needed ++ a) encs).
    { unfold update_dylink_section in Hup. rewrite Hp in Hup. cbn [rbind] in Hup.
      destruct (encode_needed _ _) as [x| |] eqn:E; cbn in Hup; try done.
      by apply encode_needed_Ok_inv in E. }
    destruct Henc as [encs He].
    destruct (update_dylink_section_spec _ _ _ _ _ _ _ _ _ Hp He)
      as (Hup' & Hle & module & module' & new & secs' & Hmod & _ & _ & _
          & Hnew & _ & Hparse).
    set (body := dylink_body ms ma ts 0 encs) in *.
    assert (Hout : out = take 8 orig ++ custom_section body ++ drop send orig)
      by congruence.
    destruct (Module_init_Ok_inv _ _ Hmod) as (Hm & Hv & _).
    destruct (header_length _ Hm Hv) as [H8 _].
    assert (Hl8 : length (take 8 orig) = 8%nat) by (rewrite length_take; lia).
    assert (Htake : take 8 out = take 8 orig).
    { rewrite Hout, take_app_le by lia. by rewrite take_ge by lia. }
    assert (Hdrop : drop (sec_offset new + N.to_nat (sec_size new)) out =
                    drop send orig).
    { rewrite Hnew, Hout. cbn [sec_offset sec_size]. rewrite Nat2N.id.
      rewrite <- drop_drop, (drop_custom_section _ _ _ Hl8).
      by rewrite drop_app_length. }
    rewrite <- Hout in Hparse.
    unfold update_dylink_section. rewrite Hparse, Hp. cbn [rbind].
    rewrite <- app_assoc, Htake, Hdrop. done. }
  split; [apply Hagain|]. by rewrite Hagain, app_nil_r.
Qed.

Lemma update_dylink_section_compose_witness :
  exists out,
    update_dylink_section examples.dylink [str_of "b"] = Ok out /\
    update_dylink_section out [str_of "c"] =
      update_dylink_section examples.dylink [str_of "b"; str_of "c"] /\
    update_dylink_section out [] = Ok out.
Proof.
  eexists. split; [vm_compute; reflexivity|].
  apply (update_dylink_section_compose examples.dylink _ [str_of "b"] [str_of "c"]).
  vm_compute. reflexivity.
Defined.

(** ** The errors of update_dylink_section *)

Lemma encode_char_outcome (c : N) :
  (exists e, utf8.encode_char c = Ok e) \/
  utf8.encode_char c = Raise UnicodeEncodeError.
Proof.
  unfold utf8.encode_char.
  repeat match goal with
         | |- context [if ?b then _ else _] => destruct b
         end; eauto.
Qed.

Lemma encode_outcome (s : str) :
  encodable s \/ utf8.encode s = Raise UnicodeEncodeError.
Proof.
  unfold encodable, encodes. induction s as [|c s IH]; [left; by eexists|].
  cbn [utf8.encode].
  destruct (encode_char_outcome c) as [[e ->]| ->]; [|by right].
  cbn [rbind]. destruct IH as [[r ->]| ->]; [left; by eexists|by right].
Qed.

Lemma encode_needed_outcome (names : list str) : forall contents,
  (Forall encodable names /\ exists out, encode_needed names contents = Ok out) \/
  (~ Forall encodable names /\
   encode_needed names contents = Raise UnicodeEncodeError).
Proof.
  induction names as [|name names IH]; intros contents.
  - left. split; [constructor|by eexists].
  - cbn [encode_needed]. destruct (encode_outcome name) as [[e He]|He].
    + unfold encodes in He. rewrite He. cbn [rbind].
      destruct (IH (contents ++ toLEB (N.of_nat (length e)) ++ e))
        as [[Hall Hout]|[Hnot Hout]].
      * left. split; [|done]. constructor; [by exists e|done].
      * right. split; [|done]. intros H. apply Forall_cons in H as [_ H]. done.
    + rewrite He. right. split; [|done].
      intros H. apply Forall_cons in H as [[e He'] _].
      unfold encodes in He'. congruence.
Qed.

(** X8: [update_dylink_section] raises what [parse_dylink_section] raises; when
    the parse returns, it returns if utf-8 encodes every extra name, and
    raises [UnicodeEncodeError], before it writes, if there is a name that
    utf-8 does not encode, one with a surrogate. *)
Theorem update_dylink_section_errors (orig : bytes) (extra_dynlibs : list str) :
  (forall e, parse_dylink_section orig = Raise e ->
     update_dylink_section orig extra_dynlibs = Raise e) /\
  (forall r, parse_dylink_section orig = Ok r ->
     (Forall encodable extra_dynlibs ->
      exists out, update_dylink_section orig extra_dynlibs = Ok out) /\
     (~ Forall encodable extra_dynlibs ->
      update_dylink_section orig extra_dynlibs = Raise UnicodeEncodeError)).
Proof.
  split.
  - intros e Hp. unfold update_dylink_section. by rewrite Hp.
  - intros [[[[[ms ma] ts] ta] send] needed] Hp.
    destruct (parse_dylink_section_inv _ _ _ _ _ _ _ Hp)
      as (_ & _ & _ & _ & _ & _ & _ & Hneeded).
    unfold update_dylink_section. rewrite Hp. cbn [rbind].
    match goal with
    | |- context [encode_needed ?l ?c] =>
        destruct (encode_needed_outcome l c) as [[Hall [out ->]]|[Hnot ->]]
    end; cbn [rbind].
    + split; [by eexists|]. intros Hn. destruct Hn.
      by apply Forall_app in Hall as [_ ?].
    + split; [|done]. intros Hall. destruct Hnot. by apply Forall_app.
Qed.

Lemma update_dylink_section_errors_witness :
  update_dylink_section examples.dylink [[0xD800]] = Raise UnicodeEncodeError /\
  update_dylink_section examples.header [str_of "b"] = Raise IndexError.
Proof.
  split.
  - eapply (proj2 (update_dylink_section_errors examples.dylink [[0xD800]])).
    + vm_compute. reflexivity.
    + intros H. apply Forall_cons in H as [[e He] _]. vm_compute in He.
      discriminate.
  - apply (proj1 (update_dylink_section_errors examples.header [str_of "b"])).
    vm_compute. reflexivity.
Defined.

(** ** Methods that read the stream forwards *)

Lemma stream_reader_ret {A} (a : A) : stream_reader (ret a).
Proof. intros s1 s2 H. by split. Qed.

Lemma stream_reader_lift {A} (r : result A) : stream_reader (lift r).
Proof. intros s1 s2 H. unfold lift. destruct r; [by split|done..]. Qed.

Lemma stream_reader_bind {A B} (m : M A) (k : A -> M B) :
  stream_reader m -> (forall a, stream_reader (k a)) -> stream_reader (bind m k).
Proof.
  intros Hm Hk s1 s2 H. specialize (Hm _ _ H). unfold bind, same_outcome in *.
  destruct (m s1) as [[a1 s1']| |], (m s2) as [[a2 s2']| |]; try done.
  destruct Hm as [<- H']. by apply Hk.
Qed.

Lemma same_stream_advance s1 s2 n :
  same_stream s1 s2 ->
  same_stream (set_pos s1 (pos s1 + n)) (set_pos s2 (pos s2 + n)).
Proof.
  unfold same_stream. cbn [pos buf set_pos]. intros H.
  by rewrite <- !drop_drop, H.
Qed.

Lemma stream_reader_buf_read (n : nat) : stream_reader (buf_read n).
Proof.
  intros s1 s2 H. unfold buf_read, same_outcome. rewrite H.
  split; [done|]. by apply same_stream_advance.
Qed.

Lemma stream_reader_readByte : stream_reader readByte.
Proof.
  apply stream_reader_bind; [apply stream_reader_buf_read|].
  intros [|b bs]; [done|apply stream_reader_ret].
Qed.

Lemma stream_reader_readULEB : stream_reader readULEB.
Proof.
  intros s1 s2 H. unfold readULEB, same_outcome. rewrite H.
  destruct (leb128.u_decode_reader _) as [[v n]| |]; [|done..].
  split; [done|]. by apply same_stream_advance.
Qed.

Lemma stream_reader_readSLEB : stream_reader readSLEB.
Proof.
  intros s1 s2 H. unfold readSLEB, same_outcome. rewrite H.
  destruct (leb128.i_decode_reader _) as [[v n]| |]; [|done..].
  split; [done|]. by apply same_stream_advance.
Qed.

Lemma stream_reader_readString : stream_reader readString.
Proof.
  apply stream_reader_bind; [apply stream_reader_readULEB|]. intros size.
  apply stream_reader_bind; [apply stream_reader_buf_read|]. intros bs.
  apply stream_reader_lift.
Qed.

Lemma stream_reader_readLimits : stream_reader readLimits.
Proof.
  apply stream_reader_bind; [apply stream_reader_readByte|]. intros fl.
  apply stream_reader_bind; [apply stream_reader_readULEB|]. intros ini.
  apply stream_reader_bind; [|intros mx; apply stream_reader_ret].
  destruct (N.land fl 1 =? 0);
    [apply stream_reader_ret|apply stream_reader_readULEB].
Qed.

Lemma stream_reader_read_import imports : stream_reader (read_import imports).
Proof.
  apply stream_reader_bind; [apply stream_reader_readString|]. intros mod_.
  apply stream_reader_bind; [apply stream_reader_readString|]. intros field.
  apply stream_reader_bind; [apply stream_reader_readByte|]. intros b.
  apply stream_reader_bind; [apply stream_reader_lift|]. intros kind.
  destruct kind;
    repeat first
      [ apply stream_reader_ret | apply stream_reader_lift
      | apply stream_reader_readULEB | apply stream_reader_readSLEB
      | apply stream_reader_readByte | apply stream_reader_readLimits
      | apply stream_reader_bind; [|intros ?] ].
Qed.

Lemma stream_reader_read_imports n : forall imports,
  stream_reader (read_imports n imports).
Proof.
  induction n as [|n IH]; intros imports; cbn [read_imports].
  - apply stream_reader_ret.
  - apply stream_reader_bind; [apply stream_reader_read_import|done].
Qed.

(** ** The imports after a rewrite *)

(** The imports of the file made of the header of [orig], a custom section
    and the bytes of [orig] from a position where the frames of its indexed
    sections start. *)
Lemma get_imports_splice (orig : bytes) (k : nat) (secs : list section_info)
    (module : wasm_module) (body : bytes) :
  Module_init orig = Ok module ->
  frames orig k secs (length orig) ->
  index_sections secs ∅ = Some (section_map module) ->
  get_imports (take 8 orig ++ custom_section body ++ drop k orig) =
    get_imports orig.
Proof.
  intros Hmod Hfr Hidx.
  destruct (Module_init_Ok_inv _ _ Hmod) as (Hm & Hv & _).
  destruct (Module_init_splice orig k secs _ body Hm Hv Hfr Hidx)
    as (rsecs & m0 & _ & Hmap & Hlen & Hout).
  pose proof (frames_le _ _ _ _ Hfr) as Hk.
  destruct (header_length _ Hm Hv) as [H8 _].
  unfold get_imports. rewrite Hout, Hmod. cbn [rbind section_map].
  rewrite Hmap, !lookup_fmap.
  destruct (m0 !! SecType_value IMPORT) as [s0|]; cbn [fmap option_fmap option_map];
    [|done].
  unfold bind at 1 3, seek. cbn [shift_section sec_offset].
  match goal with
  | |- rbind (?m ?s1) _ = rbind (?m ?s2) _ =>
      assert (H : same_outcome (m s1) (m s2))
  end.
  { apply stream_reader_bind.
    - apply stream_reader_readULEB.
    - intros n. apply stream_reader_read_imports.
    - unfold same_stream. cbn [pos buf set_pos].
      assert (Hmod' : buf module = orig).
      { by apply Module_init_Ok_inv in Hmod as (_ & _ & ? & ? & _ & _ & ->). }
      rewrite Hmod'.
      rewrite (app_assoc (take 8 orig)), <- drop_drop.
      rewrite drop_app_length'; [by rewrite drop_drop|].
      rewrite length_app, length_take. lia. }
  unfold same_outcome in H.
  repeat match goal with
         | H : context [match ?r with _ => _ end] |- _ =>
             destruct r as [[? ?]| |]
         end; try done.
  - by destruct H as [-> _].
  - by rewrite H.
Qed.

(** X9: [add_emscripten_metadata] leaves the imports as they are: on a file that
    opens, [get_imports] returns after the rewrite what it returned before
    it, and raises what it raised. *)
Theorem get_imports_after_metadata (settings : Settings) (orig : bytes)
    (module : wasm_module) :
  Module_init orig = Ok module ->
  get_imports (add_emscripten_metadata settings orig) = get_imports orig.
Proof.
  intros Hmod. rewrite add_emscripten_metadata_eq.
  destruct (Module_init_Ok_inv _ _ Hmod)
    as (_ & _ & secs & m & Htiles & Hidx & E).
  apply (get_imports_splice orig 8 secs module); [done|done|by rewrite E].
Qed.

Lemma get_imports_after_metadata_witness :
  get_imports (add_emscripten_metadata examples.settings examples.imports) =
    get_imports examples.imports.
Proof.
  eapply (get_imports_after_metadata examples.settings examples.imports).
  vm_compute. reflexivity.
Defined.

(** X10: [update_dylink_section] leaves the imports as they are: [get_imports]
    returns on the file it wrote what it returned on the original file, and
    raises what it raised. *)
Theorem get_imports_after_update (orig out : bytes) (extra_dynlibs : list str) :
  update_dylink_section orig extra_dynlibs = Ok out ->
  get_imports out = get_imports orig.
Proof.
  intros Hup.
  destruct (parse_dylink_section orig)
    as [[[[[[ms ma] ts] ta] send] needed]| |] eqn:Hp;
    [|unfold update_dylink_section in Hup; by rewrite Hp in Hup..].
  assert (Henc : exists encs, Forall2 encodes (needed ++ extra_dynlibs) encs).
  { unfold update_dylink_section in Hup. rewrite Hp in Hup. cbn [rbind] in Hup.
    destruct (encode_needed _ _) as [c| |] eqn:E; cbn in Hup; try done.
    by apply encode_needed_Ok_inv in E. }
  destruct Henc as [encs He].
  pose proof (update_dylink_section_eq _ _ _ _ _ _ _ _ _ Hp He) as Hup'.
  assert (Hout : out = take 8 orig
                         ++ custom_section (dylink_body ms ma ts 0 encs)
                         ++ drop send orig) by congruence.
  destruct (parse_dylink_section_inv _ _ _ _ _ _ _ Hp)
    as (module & s & rest & Hmod & Hsecs & Hty & Hend & _).
  destruct (Module_init_Ok_inv _ _ Hmod)
    as (_ & _ & secs & m & Htiles & Hidx & E).
  rewrite E in Hsecs. cbn [sections] in Hsecs. subst secs.
  destruct (frames_tail _ _ _ _ _ Htiles) as (Hfr & _ & _).
  rewrite <- Hend in Hfr.
  cbn [index_sections] in Hidx. rewrite Hty, N.eqb_refl in Hidx.
  rewrite Hout. apply (get_imports_splice orig send rest module); [done|done|].
  by rewrite E.
Qed.

Lemma get_imports_after_update_witness :
  exists out,
    update_dylink_section examples.dylink [str_of "b"] = Ok out /\
    get_imports out = get_imports examples.dylink.
Proof.
  eexists. split; [vm_compute; reflexivity|].
  apply (get_imports_after_update examples.dylink _ [str_of "b"]).
  vm_compute. reflexivity.
Defined.

(** ** What get_imports returns *)

Lemma read_import_Ok_inv acc self l self' :
  read_import acc self = Ok (l, self') ->
  exists i, l = acc ++ [i] /\ import_ok i.
Proof.
  unfold read_import. intros H.
  apply bind_Ok_inv in H as (mod_ & s1 & Hmod & H).
  apply bind_Ok_inv in H as (field & s2 & Hfield & H).
  apply bind_Ok_inv in H as (b & s3 & _ & H).
  apply bind_Ok_inv in H as (kind & s4 & _ & H).
  apply readString_Ok_inv in Hmod, Hfield.
  exists (Import_ kind mod_ field).
  destruct kind;
    repeat (apply bind_Ok_inv in H as (? & ? & ? & H));
    unfold ret in H; injection H as <- _; by repeat split.
Qed.

Lemma read_imports_Ok_inv n : forall acc self l self',
  read_imports n acc self = Ok (l, self') ->
  exists new, l = acc ++ new /\ length new = n /\ Forall import_ok new.
Proof.
  induction n as [|n IH]; intros acc self l self' H; cbn [read_imports] in H.
  - injection H as <- _. exists []. by rewrite app_nil_r.
  - apply bind_Ok_inv in H as (l1 & s1 & H1 & H).
    apply read_import_Ok_inv in H1 as (i & -> & Hi).
    apply IH in H as (new & -> & <- & Hnew). exists (i :: new).
    rewrite <- app_assoc. split; [done|]. split; [done|]. by constructor.
Qed.

(** X11: when [get_imports] returns, no record of the list has the kind EVENT and
    the names of each one are strings that utf-8 encodes; the list is empty
    when the module has no import section and has otherwise as many records
    as the count at the start of the section says. *)
Theorem get_imports_Ok_inv (file : bytes) (l : list import_info) :
  get_imports file = Ok l ->
  Forall import_ok l /\
  exists module,
    Module_init file = Ok module /\
    match section_map module !! SecType_value IMPORT with
    | None => l = []
    | Some import_section =>
        exists num_imports self',
          readULEB (set_pos module (sec_offset import_section)) =
            Ok (num_imports, self') /\
          length l = N.to_nat num_imports
    end.
Proof.
  unfold get_imports. intros H.
  destruct (Module_init file) as [module| |] eqn:Hmod; cbn [rbind] in H; try done.
  destruct (section_map module !! SecType_value IMPORT) as [s|] eqn:Hs.
  - destruct ((seek (sec_offset s) ;;; num_imports <- readULEB ;;
               read_imports (N.to_nat num_imports) []) module)
      as [[l' final]| |] eqn:E; cbn [rbind fst] in H; try done.
    injection H as ->.
    unfold bind at 1, seek in E.
    apply bind_Ok_inv in E as (n & s1 & Hn & E).
    apply read_imports_Ok_inv in E as (new & -> & Hlen & Hnew).
    split; [done|]. exists module. split; [done|]. rewrite Hs. by exists n, s1.
  - injection H as <-. split; [constructor|]. exists module. by rewrite Hs.
Qed.

Lemma get_imports_Ok_inv_witness :
  Forall import_ok (entry_import <$> examples.import_entries).
Proof.
  apply (get_imports_Ok_inv examples.imports). vm_compute. reflexivity.
Defined.

(** ** The methods that read *)

(** X12: [readByte] returns the byte at the position of the stream and moves the
    stream one byte on; at the end of the file, and beyond it after a [seek],
    [read(1)] returns no byte and the index raises [IndexError]. *)
Theorem readByte_spec (self : wasm_module) :
  readByte self =
    match buf self !! pos self with
    | Some b => Ok (Byte.to_N b, set_pos self (S (pos self)))
    | None => Raise IndexError
    end.
Proof.
  destruct (buf self !! pos self) as [b|] eqn:E.
  - apply (readByte_cons b (drop (S (pos self)) (buf self))).
    by apply drop_S.
  - unfold readByte, bind, buf_read.
    rewrite drop_ge by (by apply lookup_ge_None). done.
Qed.

Lemma land_1_eqb (x : N) : (N.land x 1 =? 0) = negb (N.testbit x 0).
Proof.
  change 1 with (N.ones 1). rewrite N.land_ones. change (2 ^ 1) with 2.
  rewrite <- N.bit0_mod. by destruct (N.testbit x 0).
Qed.

(** X13: [readLimits] reads the flags and the initial size, and the maximum when
    bit 0 of the flags is set, whatever the other bits are; otherwise the
    maximum of the record is 0 and the stream is left after the initial
    size. *)
Theorem readLimits_encoded (fl : byte) (initial maximum : N) (rest : bytes)
    (self : wasm_module) :
  let has_max := N.testbit (Byte.to_N fl) 0 in
  let written :=
    [fl] ++ toLEB initial ++ (if has_max then toLEB maximum else []) in
  drop (pos self) (buf self) = written ++ rest ->
  readLimits self =
    Ok (Limits_ (Byte.to_N fl) initial (if has_max then maximum else 0),
        set_pos self (pos self + length written)).
Proof.
  intros has_max written H. unfold written in *. rewrite <- !app_assoc in H.
  unfold readLimits.
  rewrite (bind_Ok _ _ _ _ _ (readByte_cons fl _ _ H)).
  apply (drop_app_rest _ [fl]) in H. cbn [length] in H. rewrite Nat.add_1_r in H.
  erewrite bind_Ok; [|eapply readULEB_encode; cbn [pos buf set_pos]; exact H].
  apply drop_app_rest in H. cbn [pos set_pos]. rewrite set_pos_set_pos.
  rewrite land_1_eqb. fold has_max. destruct has_max; cbn [negb].
  - erewrite bind_Ok; [|eapply readULEB_encode; cbn [pos buf set_pos]; exact H].
    unfold ret. cbn [pos set_pos]. rewrite set_pos_set_pos.
    do 2 f_equal. apply set_pos_eq. rewrite !length_app. cbn [length]. lia.
  - unfold bind, ret. do 2 f_equal. apply set_pos_eq.
    rewrite !length_app. cbn [length]. lia.
Qed.

Lemma readLimits_encoded_witness :
  readLimits (Module_ 3 (bytes_of [3; 1; 2]) 0 [] ∅) =
    Ok (Limits_ 3 1 2, Module_ 3 (bytes_of [3; 1; 2]) 3 [] ∅) /\
  readLimits (Module_ 3 (bytes_of [2; 1; 2]) 0 [] ∅) =
    Ok (Limits_ 2 1 0, Module_ 3 (bytes_of [2; 1; 2]) 2 [] ∅).
Proof.
  split.
  - apply (readLimits_encoded (byte_of_N 3) 1 2 []). reflexivity.
  - apply (readLimits_encoded (byte_of_N 2) 1 2 (bytes_of [2])). reflexivity.
Defined.

(** ** The payloads of the sections *)

(** The varint decoder looks at the bytes it counts and at no other. *)
Lemma u_decode_prefix (r1 : bytes) : forall (r2 : bytes) v n,
  leb128.u_decode_reader r1 = Ok (v, n) ->
  (forall j, (j < n)%nat -> r2 !! j = r1 !! j) ->
  leb128.u_decode_reader r2 = Ok (v, n).
Proof.
  induction r1 as [|b r1 IH]; intros r2 v n H Hagree; [done|].
  pose proof (u_decode_length _ _ _ H) as [Hn _].
  destruct r2 as [|b2 r2]; [by specialize (Hagree 0%nat ltac:(lia))|].
  pose proof (Hagree 0%nat ltac:(lia)) as H0. injection H0 as ->.
  cbn [leb128.u_decode_reader] in *.
  destruct (Byte.to_N b <? 128); [done|].
  destruct (leb128.u_decode_reader r1) as [[v' n']| |] eqn:E; try done.
  injection H as <- <-.
  rewrite (IH r2 v' n' eq_refl); [done|].
  intros j Hj. apply (Hagree (S j)). lia.
Qed.

(** The frames of a file are those of any file with the same bytes outside
    the payloads of their sections. *)
Lemma frames_agree (file1 file2 : bytes) p secs q :
  frames file1 p secs q ->
  (forall i, (p <= i < q)%nat -> Forall (fun s => ~ in_payload s i) secs ->
     file2 !! i = file1 !! i) ->
  frames file2 p secs q.
Proof.
  induction 1 as [p|p ty sz n secs q Hty Hdec Hfr IH]; intros Hagree;
    [constructor|].
  pose proof (u_decode_length _ _ _ Hdec) as [Hn _].
  pose proof (frames_le _ _ _ _ Hfr) as Hq.
  pose proof (frames_bounds _ _ _ _ Hfr) as Hb.
  assert (Hhead : forall i, (p <= i < S p + n)%nat -> file2 !! i = file1 !! i).
  { intros i Hi. apply Hagree; [lia|]. constructor.
    - unfold in_payload. cbn. lia.
    - eapply Forall_impl; [exact Hb|]. unfold in_payload. cbn. intros s. lia. }
  constructor.
  - rewrite Hhead by lia. done.
  - apply (u_decode_prefix _ _ _ _ Hdec). intros j Hj.
    rewrite !lookup_drop. apply Hhead. lia.
  - apply IH. intros i Hi Hout. apply Hagree; [lia|]. constructor; [|done].
    unfold in_payload. cbn. lia.
Qed.

(** X14: [Module(filename)] reads the headers of the sections and never their
    payloads: a file of the same size as one that opens, with the same bytes
    outside the payloads of its sections, opens with the same sections and
    the same index. *)
Theorem Module_init_payloads_unread (file1 file2 : bytes) (module1 : wasm_module) :
  Module_init file1 = Ok module1 ->
  length file2 = length file1 ->
  (forall i, (i < length file1)%nat ->
     Forall (fun s => ~ in_payload s i) (sections module1) ->
     file2 !! i = file1 !! i) ->
  exists module2,
    Module_init file2 = Ok module2 /\
    sections module2 = sections module1 /\
    section_map module2 = section_map module1.
Proof.
  intros Hmod Hlen Hagree.
  destruct (Module_init_Ok_inv _ _ Hmod)
    as (Hm & Hv & secs & m & Htiles & Hidx & ->).
  cbn [sections] in Hagree.
  destruct (header_length _ Hm Hv) as [H8 Hh].
  pose proof (frames_bounds _ _ _ _ Htiles) as Hb.
  assert (Hh2 : take 8 file2 = wasm_magic ++ wasm_version).
  { rewrite <- Hh. apply list_eq. intros i.
    destruct (decide (i < 8)%nat) as [Hi|Hi].
    - rewrite !lookup_take_lt by done. apply Hagree; [lia|].
      eapply Forall_impl; [exact Hb|]. unfold in_payload. cbn. intros s. lia.
    - by rewrite !lookup_take_ge by lia. }
  apply header_take in Hh2 as [Hm2 Hv2].
  exists (Module_ (length file2) file2 (length file2) secs m). split; [|done].
  apply (Module_init_tiles file2 secs m Hm2 Hv2); [|done].
  unfold tiles. rewrite Hlen. apply (frames_agree file1); [done|].
  intros i Hi. apply Hagree. lia.
Qed.

Lemma Module_init_payloads_unread_witness :
  exists module2,
    Module_init (examples.header ++ bytes_of [1; 1; 255]) = Ok module2 /\
    sections module2 = [Section_ 1 1 10].
Proof.
  destruct (Module_init_payloads_unread
              (examples.header ++ bytes_of [1; 1; 0])
              (examples.header ++ bytes_of [1; 1; 255])
              (Module_ 11 (examples.header ++ bytes_of [1; 1; 0]) 11
                 [Section_ 1 1 10] {[ 1 := Section_ 1 1 10 ]}))
    as (module2 & H1 & H2 & _).
  - vm_compute. reflexivity.
  - reflexivity.
  - intros i Hi Hout. apply Forall_cons in Hout as [Hout _].
    unfold in_payload in Hout. cbn in Hout, Hi.
    do 10 (destruct i as [|i]; [reflexivity|]).
    destruct i as [|i]; [|lia]. exfalso. apply Hout. cbn. lia.
  - exists module2. by split.
Defined.
